(** * LokiLogFetcher: a shallow embedding of [tools/loki_tools.py]

    The fetcher queries Loki's range-query endpoint page by page, stores the
    [(time_ns, message)] pairs either in a list or in a dictionary of sets,
    exposes them as a sorted, formatted view ([logs]) and dumps that view into
    a byte sink ([to_file]).

    Python integers are [Z]; text is [string]; [bytes] are [list Byte.byte];
    a [dict] is a [gmap], a [set] a [gset].  Exceptions are values of [exn]
    and every fallible operation returns a [res]. *)

From Stdlib Require Import ZArith Lia Ascii String.
From stdpp Require Import base option list sorting gmap sets strings.

Local Open Scope string_scope.
Local Open Scope Z_scope.
Local Open Scope list_scope.
#[local] Set Warnings "-clear-no-such-hyp".
#[local] Set Default Proof Using "Type".
#[local] Set Proof Using Clear Unused.

(** ** Python values, exceptions and the two monads *)
Module Py.

Inductive exn : Type :=
  | AssertionError
  | KeyError (key : string)
  | ValueError
  | TypeError
  | LookupError
  | UnicodeEncodeError
  | ConnectionError
  | JSONDecodeError
  | RecursionError
  | VaultError (reason : string).

(** Outcome of a call: a value or a raised exception. *)
Inductive res (A : Type) : Type :=
  | Ret (a : A)
  | Raise (e : exn).
Arguments Ret {A} a.
Arguments Raise {A} e.

#[global] Instance res_ret : MRet res := fun A a => Ret a.
#[global] Instance res_bind : MBind res := fun A B k c =>
  match c with
  | Ret a => k a
  | Raise e => Raise e
  end.

(** Code that mutates an object: the mutation made before an exception is
    raised stays, so the state is returned on every outcome. *)
Definition M (S A : Type) : Type := S -> res A * S.

#[global] Instance M_ret {S} : MRet (M S) := fun A a s => (Ret a, s).
#[global] Instance M_bind {S} : MBind (M S) := fun A B k c s =>
  match c s with
  | (Ret a, s') => k a s'
  | (Raise e, s') => (Raise e, s')
  end.

Definition raise {S A} (e : exn) : M S A := fun s => (Raise e, s).
Definition get {S} : M S S := fun s => (Ret s, s).
Definition modify {S} (f : S -> S) : M S unit := fun s => (Ret tt, f s).
Definition lift {S A} (c : res A) : M S A := fun s => (c, s).

(** [d[key]] on a dictionary with string keys. *)
Definition getitem {V} (d : gmap string V) (key : string) : res V :=
  match d !! key with
  | Some v => Ret v
  | None => Raise (KeyError key)
  end.

(** [not s] for an optional string: [None] and [''] are falsy. *)
Definition falsy (s : option string) : bool :=
  match s with
  | None | Some EmptyString => true
  | Some (String _ _) => false
  end.

(** [int(text)], base ten, on a text whose characters are the code points
    below 256: blanks around the number are dropped, then an optional sign,
    then digits, where single underscores may separate digits.  Anything
    else is a [ValueError], and so is a number of more than 4300 digits
    (the interpreter's default limit).

    The blanks [int] drops are the codes 9 to 13 and 32; the codes 28 to 31
    are not among them.  A text with a character beyond ASCII is first
    translated: its blanks beyond ASCII, 133 and 160, become a space, and
    its other characters from 127 on become a question mark (no code point
    below 256 beyond ASCII is a decimal digit). *)
Definition isspace (c : ascii) : bool :=
  let n := Z.of_N (N_of_ascii c) in
  ((9 <=? n) && (n <=? 13)) || (n =? 32).

Fixpoint isascii (s : string) : bool :=
  match s with
  | EmptyString => true
  | String c rest => (Z.of_N (N_of_ascii c) <? 128) && isascii rest
  end.

Definition to_ascii_char (c : ascii) : ascii :=
  let n := Z.of_N (N_of_ascii c) in
  if n <? 127 then c
  else if (n =? 133) || (n =? 160) then " "%char
  else "?"%char.

Fixpoint map_chars (f : ascii -> ascii) (s : string) : string :=
  match s with
  | EmptyString => EmptyString
  | String c rest => String (f c) (map_chars f rest)
  end.

Definition to_ascii (s : string) : string :=
  if isascii s then s else map_chars to_ascii_char s.

Fixpoint lstrip (s : string) : string :=
  match s with
  | EmptyString => EmptyString
  | String c rest => if isspace c then lstrip rest else s
  end.

Fixpoint rstrip (s : string) : string :=
  match s with
  | EmptyString => EmptyString
  | String c rest =>
      match rstrip rest with
      | EmptyString => if isspace c then EmptyString else String c EmptyString
      | kept => String c kept
      end
  end.

Definition digit (c : ascii) : option Z :=
  let n := Z.of_N (N_of_ascii c) in
  if (48 <=? n) && (n <=? 57) then Some (n - 48) else None.

(** [after_digit] tells whether the previous character was a digit: an
    underscore is accepted only there, and the text must end on a digit. *)
Fixpoint digits (acc : Z) (after_digit : bool) (s : string) : option Z :=
  match s with
  | EmptyString => if after_digit then Some acc else None
  | String c rest =>
      if Ascii.eqb c "_" then
        if after_digit then digits acc false rest else None
      else
        match digit c with
        | Some d => digits (10 * acc + d) true rest
        | None => None
        end
  end.

(** The number of digits of a text, underscores and sign left out. *)
Fixpoint count_digits (s : string) : Z :=
  match s with
  | EmptyString => 0
  | String c rest =>
      (match digit c with Some _ => 1 | None => 0 end) + count_digits rest
  end.

Definition int_max_str_digits : Z := 4300.

Definition int (text : string) : res Z :=
  let text := to_ascii text in
  let parsed :=
    match rstrip (lstrip text) with
    | String "-" rest => Z.opp <$> digits 0 false rest
    | String "+" rest => digits 0 false rest
    | body => digits 0 false body
    end in
  match parsed with
  | Some n =>
      if int_max_str_digits <? count_digits text then Raise ValueError
      else Ret n
  | None => Raise ValueError
  end.

(** [sorted(l, key=key)]: Python's sort is stable, and a stable sort by a
    key is unique; it is written here as straight insertion. *)
Section sorted.
Context {A : Type} (key : A -> Z).

Fixpoint insert_by (x : A) (l : list A) : list A :=
  match l with
  | [] => [x]
  | y :: l' => if key x <=? key y then x :: l else y :: insert_by x l'
  end.

Definition sorted (l : list A) : list A := foldr insert_by [] l.

(** Ascending order of the keys. *)
Definition key_le (a b : A) : Prop := key a <= key b.
End sorted.

End Py.
Import Py.


(** ** [io.BytesIO]: a growable byte buffer with a cursor *)
Module BytesIO.

Record t : Type := { buf : list Byte.byte; pos : nat }.

Definition new : t := {| buf := []; pos := 0 |}.

(** The buffer, filled with zero bytes up to a cursor that lies beyond its
    end. *)
Definition padded (f : t) : list Byte.byte :=
  buf f ++ replicate (pos f - length (buf f))%nat Byte.x00.

(** [write] overwrites from the cursor on and extends the buffer when it
    runs past the end.  Writing nothing changes nothing. *)
Definition write (b : list Byte.byte) (f : t) : t :=
  match b with
  | [] => f
  | _ =>
      {| buf := take (pos f) (padded f) ++ b
                ++ drop (pos f + length b)%nat (padded f);
         pos := (pos f + length b)%nat |}
  end.

Definition seek (offset : nat) (f : t) : t := {| buf := buf f; pos := offset |}.



End BytesIO.

(** ** [MinioClientABC] of [tools/minio_client.py]: bucket names and listings *)
Module MinioClient.

(** [s[n:]]. *)
Fixpoint drop_chars (n : nat) (s : string) : string :=
  match n, s with
  | O, _ => s
  | S _, EmptyString => EmptyString
  | S n', String _ rest => drop_chars n' rest
  end.

(** [s.replace(old, new, 1)]: the leftmost occurrence of [old], if there is
    one, gives way to [new]. *)
Fixpoint replace_once (old new s : string) : string :=
  if String.prefix old s then new +:+ drop_chars (String.length old) s
  else match s with
       | EmptyString => EmptyString
       | String c rest => String c (replace_once old new rest)
       end.

(** What the S3 client returns, with the fields the code reads. *)
Record bucket : Type := { Name : string }.
Record list_buckets_output : Type := { Buckets : option (list bucket) }.

Record s3_object (datetime : Type) : Type := {
  Key : string;
  Size : Z;
  LastModified : datetime
}.
Arguments Key {datetime} _.
Arguments Size {datetime} _.
Arguments LastModified {datetime} _.

Record list_objects_output (datetime : Type) : Type := {
  Contents : option (list (s3_object datetime));
  NextContinuationToken : option string
}.
Arguments Contents {datetime} _.
Arguments NextContinuationToken {datetime} _.

(** The keyword arguments of one [list_objects_v2] call. *)
Record list_objects_call : Type := {
  Bucket : string;
  ContinuationToken : option string
}.

(** An entry of the list [list_files] returns. *)
Record file_info : Type := { name : string; size : Z; modified : string }.

(** A client that hands out the given answers in turn, whatever it is
    asked, and fails once they are used up. *)
Definition answers {A} (script : list (res A))
    (calls : list list_objects_call) (_ : list_objects_call) : res A :=
  default (Raise ConnectionError) (script !! length calls).

Section Client.
(** The abstract property [bucket_prefix]. *)
Context (bucket_prefix : string).
(** [LastModified] is a [datetime]; [isoformat] is its method. *)
Context {datetime : Type} (isoformat : datetime -> string).
(** [self.s3_client.list_buckets()]. *)
Context (list_buckets : res list_buckets_output).
(** [self.s3_client.list_objects_v2(...)]: the answer may depend on the
    calls made before. *)
Context (list_objects_v2 : list list_objects_call -> list_objects_call
                           -> res (list_objects_output datetime)).

Definition format_bucket_name (bucket : string) : string :=
  if String.prefix bucket_prefix bucket then bucket
  else bucket_prefix +:+ bucket.

Definition list_bucket : res (list string) :=
  response ← list_buckets;
  mret (map (fun each => replace_once bucket_prefix "" (Name each))
         (filter (fun each => String.prefix bucket_prefix (Name each) = true)
            (default [] (Buckets response)))).

(** The comprehension over [response.get("Contents", {})]. *)
Definition files_of (response : list_objects_output datetime) : list file_info :=
  map (fun each => {| name := Key each; size := Size each;
                      modified := isoformat (LastModified each) |})
      (default [] (Contents response)).

(** The [while] loop of [list_files]; [fuel] bounds the number of times
    its condition is tested, and [None] says the loop was still going. *)
Fixpoint list_files_loop (fuel : nat) (bucket : string)
    (files : list file_info) (continuation_token : option string)
    (response : list_objects_output datetime)
    (calls : list list_objects_call)
    : option (res (list file_info) * list list_objects_call) :=
  match fuel with
  | O => None
  | S fuel' =>
      if falsy continuation_token then Some (Ret files, calls)
      else
        match Contents response with
        | None => Some (Raise (KeyError "Contents"), calls)
        | Some [] => Some (Ret files, calls)
        | Some (_ :: _) =>
            let call := {| Bucket := format_bucket_name bucket;
                           ContinuationToken := continuation_token |} in
            match list_objects_v2 calls call with
            | Raise e => Some (Raise e, calls ++ [call])
            | Ret response' =>
                match files_of response' with
                | [] => Some (Ret files, calls ++ [call])
                | appendage =>
                    list_files_loop fuel' bucket (files ++ appendage)
                      (NextContinuationToken response') response'
                      (calls ++ [call])
                end
            end
        end
  end.

Definition list_files (fuel : nat) (bucket : string)
    (calls : list list_objects_call)
    : option (res (list file_info) * list list_objects_call) :=
  let call := {| Bucket := format_bucket_name bucket;
                 ContinuationToken := None |} in
  match list_objects_v2 calls call with
  | Raise e => Some (Raise e, calls ++ [call])
  | Ret response =>
      list_files_loop fuel bucket (files_of response)
        (NextContinuationToken response) response (calls ++ [call])
  end.

(** A response after which the loop asks again: it carries a token and
    holds objects. *)
Definition continues (response : list_objects_output datetime) : Prop :=
  falsy (NextContinuationToken response) = false
  /\ exists x l, Contents response = Some (x :: l).

(** The call that follows a response. *)
Definition call_after (bucket : string)
    (response : list_objects_output datetime) : list_objects_call :=
  {| Bucket := format_bucket_name bucket;
     ContinuationToken := NextContinuationToken response |}.

End Client.

(** The two prefixes of the source: [MinioClientAdmin], and [MinioClient]
    for a project whose [id] prints as [id]. *)
Definition admin_prefix : string := "p--administration.".
Definition project_prefix (id : string) : string := "p--" +:+ id +:+ ".".

(** Sample answers of the client; a [datetime] is written as its ISO text. *)
Definition three_buckets : list_buckets_output :=
  {| Buckets := Some [ {| Name := "p--7.reports" |};
                       {| Name := "p--8.reports" |};
                       {| Name := "p--7.p--7.logs" |} ] |}.

Definition first_response : list_objects_output string :=
  {| Contents := Some [ {| Key := "a.csv"; Size := 10;
                           LastModified := "2021-05-01T10:00:00" |} ];
     NextContinuationToken := Some "token-1" |}.

Definition last_response : list_objects_output string :=
  {| Contents := Some [ {| Key := "b.csv"; Size := 20;
                           LastModified := "2021-05-02T10:00:00" |} ];
     NextContinuationToken := None |}.

Definition token_only : list_objects_output string :=
  {| Contents := None; NextContinuationToken := Some "token-1" |}.

End MinioClient.

(** ** The fetcher *)
Module LokiLogFetcher.

(** The value of [data_parse_structure]: a Python type object. *)
Inductive data_structure : Type :=
  | py_list
  | py_dict
  | py_type (name : string).

#[global] Instance data_structure_eq_dec : EqDecision data_structure.
Proof. solve_decision. Defined.

Definition available_data_structures : list data_structure := [py_list; py_dict].

(** [self._logs]: a list of pairs, or a [defaultdict(set)] from time to the
    messages logged at that time. *)
Inductive logs_store : Type :=
  | LogsList (l : list (Z * string))
  | LogsDict (d : gmap Z (gset string)).

Record fetcher : Type := {
  url : string;
  date_format : string;
  query_limit : Z;
  next_chunk_step_ns : Z;
  data_parse_structure : data_structure;
  _logs : logs_store;
  _result : option (list (string * string))
}.

Definition set_logs (logs : logs_store) (self : fetcher) : fetcher :=
  {| url := url self; date_format := date_format self;
     query_limit := query_limit self;
     next_chunk_step_ns := next_chunk_step_ns self;
     data_parse_structure := data_parse_structure self;
     _logs := logs; _result := _result self |}.

Definition set_result (result : option (list (string * string)))
    (self : fetcher) : fetcher :=
  {| url := url self; date_format := date_format self;
     query_limit := query_limit self;
     next_chunk_step_ns := next_chunk_step_ns self;
     data_parse_structure := data_parse_structure self;
     _logs := _logs self; _result := result |}.

(** *** The HTTP exchange *)

Inductive Direction : Type := forward | backward.

Record params : Type := {
  limit : Z;
  direction : Direction;
  start : Z;
  query : string
}.

Record request : Type := { req_url : string; req_params : params }.

(** The JSON document [resp.json()] returns, typed by the shape the
    endpoint documents:
    [{"data": {"result": [{"values": [[time_ns, message], ...]}, ...]}}].
    A key may be missing ([None]) and a [time_ns] text may fail to parse;
    both are the malformed documents the model covers. *)
Record stream : Type := { values : option (list (string * string)) }.
Record data_object : Type := { result : option (list stream) }.
Record response_data : Type := { data : option data_object }.

(** What [requests.get] does: it raises, or returns a response, which has
    a status code and whose [json()] raises or yields a document. *)
Inductive reply : Type :=
  | Refused (e : exn)
  | Replied (status_code : Z) (json : res response_data).

(** A session: the fetcher object and the requests sent so far. *)
Record session : Type := { self_ : fetcher; sent : list request }.

Definition on_self {A} (c : M fetcher A) : M session A := fun s =>
  let '(r, self') := c (self_ s) in
  (r, {| self_ := self'; sent := sent s |}).

(** [obj[key]] for a key of a JSON object. *)
Definition field {A} (key : string) (o : option A) : res A :=
  match o with
  | Some v => Ret v
  | None => Raise (KeyError key)
  end.

(** The order in which Python iterates over a set: some enumeration of its
    elements, each once. *)
Class SetOrder : Type := {
  set_iter : gset string -> list string;
  set_iter_perm : forall X, set_iter X ≡ₚ elements X
}.

Definition default_api_path : string := "/api/v1/query_range".
Definition default_date_format : string := "%Y-%m-%d %H:%M:%S".
Definition default_query_limit : Z := 5000.
Definition default_next_chunk_step_ns : Z := 1.

(** Keyword arguments of [from_project]; [kw_other] lists the names of
    keywords that no parameter below matches. *)
Record kwargs : Type := {
  kw_url : option string;
  kw_api_path : option string;
  kw_date_format : option string;
  kw_query_limit : option Z;
  kw_next_chunk_step_ns : option Z;
  kw_data_parse_structure : option data_structure;
  kw_other : list string
}.

(** [kwargs.pop('url', None)]. *)
Definition pop_url (kw : kwargs) : kwargs :=
  {| kw_url := None; kw_api_path := kw_api_path kw;
     kw_date_format := kw_date_format kw;
     kw_query_limit := kw_query_limit kw;
     kw_next_chunk_step_ns := kw_next_chunk_step_ns kw;
     kw_data_parse_structure := kw_data_parse_structure kw;
     kw_other := kw_other kw |}.

(** The same keywords with another [url]. *)
Definition with_url (u : option string) (kw : kwargs) : kwargs :=
  {| kw_url := u; kw_api_path := kw_api_path kw;
     kw_date_format := kw_date_format kw;
     kw_query_limit := kw_query_limit kw;
     kw_next_chunk_step_ns := kw_next_chunk_step_ns kw;
     kw_data_parse_structure := kw_data_parse_structure kw;
     kw_other := kw_other kw |}.

Definition tab : string := String "009" EmptyString.
Definition newline : string := String "010" EmptyString.

(** [f'{log[0]}\t{log[1]}\n']. *)
Definition line (log : string * string) : string :=
  log.1 +:+ tab +:+ log.2 +:+ newline.

(** *** What a document holds, read off without running the fetcher *)

(** The pairs of a [values] array up to the first time text that [int]
    rejects, and that rejection. *)
Fixpoint read_values (vs : list (string * string))
    : list (Z * string) * option exn :=
  match vs with
  | [] => ([], None)
  | (text, message) :: vs' =>
      match int text with
      | Ret t => let r := read_values vs' in ((t, message) :: r.1, r.2)
      | Raise e => ([], Some e)
      end
  end.

Fixpoint read_result (streams : list stream)
    : list (Z * string) * option exn :=
  match streams with
  | [] => ([], None)
  | i :: streams' =>
      match values i with
      | None => ([], Some (KeyError "values"))
      | Some vs =>
          let r := read_values vs in
          match r.2 with
          | Some e => (r.1, Some e)
          | None => let r' := read_result streams' in (r.1 ++ r'.1, r'.2)
          end
      end
  end.

Definition read_response (body : response_data)
    : list (Z * string) * option exn :=
  match data body with
  | None => ([], Some (KeyError "data"))
  | Some d =>
      match result d with
      | None => ([], Some (KeyError "result"))
      | Some streams => read_result streams
      end
  end.

(** The pairs of a page, and why the page fails, if it does. *)
Definition page_entries (body : response_data) : list (Z * string) :=
  (read_response body).1.
Definition page_error (body : response_data) : option exn :=
  (read_response body).2.

(** Why a reply fails, if it does: [requests.get] raised, [json()] raised,
    or the document is malformed. *)
Definition reply_error (r : reply) : option exn :=
  match r with
  | Refused e => Some e
  | Replied _ (Raise e) => Some e
  | Replied _ (Ret body) => page_error body
  end.

(** The pairs a reply brings into the store: those of its document, up to
    the failure when it has one. *)
Definition reply_entries (r : reply) : list (Z * string) :=
  match r with
  | Replied _ (Ret body) => page_entries body
  | _ => []
  end.

(** The number of [values] entries over all groups of [result]. *)
Definition values_count (body : response_data) : nat :=
  match data body with
  | Some {| result := Some streams |} =>
      sum_list_with (fun i => length (default [] (values i))) streams
  | _ => 0%nat
  end.

(** The pairs a store holds. *)
Definition stored (logs : logs_store) : list (Z * string) :=
  match logs with
  | LogsList l => l
  | LogsDict d =>
      flat_map (fun '(t, v) => map (fun i => (t, i)) (elements v))
               (map_to_list d)
  end.

(** The same pairs as a set, and how often a pair occurs in a list. *)
Definition pairs (logs : logs_store) : gset (Z * string) :=
  list_to_set (stored logs).


(** One store is kept inside another: a list as a prefix, a dictionary
    with every message still under its time. *)
Definition kept_in (before after : logs_store) : Prop :=
  match before, after with
  | LogsList l, LogsList l' => exists added, l' = l ++ added
  | LogsDict d, LogsDict d' =>
      forall t v, d !! t = Some v -> exists v', d' !! t = Some v' /\ v ⊆ v'
  | _, _ => False
  end.

(** A service that hands out the given replies in turn, whatever it is
    asked, and refuses once they are used up. *)
Definition serve (replies : list reply) (received : list request)
    (_ : request) : reply :=
  default (Refused ConnectionError) (replies !! length received).

(** A well-formed document with a single group, and the reply carrying it. *)
Definition document (vs : list (string * string)) : response_data :=
  {| data := Some {| result := Some [ {| values := Some vs |} ] |} |}.

Definition page (vs : list (string * string)) : reply :=
  Replied 200 (Ret (document vs)).

(** *** Concrete surroundings, for running the fetcher *)

(** Sets iterated in the order of [elements]. *)
Definition elements_order : SetOrder :=
  {| set_iter := elements; set_iter_perm := fun X => reflexivity (elements X) |}.

(** A [date_format] without directives: [strftime] returns it as it is. *)
Definition literal_format (date_format : string) (_ : Z) : res string :=
  Ret date_format.

(** A stand-in for a calendar that ends: [fromtimestamp] raises
    [ValueError] for a time in the year 10000 (253402300800 seconds after
    the epoch, in UTC); this formatter raises it for every time from there
    on and returns the format for the times before. *)
Definition calendar_format (date_format : string) (time_ns : Z) : res string :=
  if time_ns <? 253402300800 * 1000000000 then Ret date_format
  else Raise ValueError.

(** An encoding that maps each character to its byte. *)
Definition bytes_of (text : string) : list Byte.byte :=
  map byte_of_ascii (list_ascii_of_string text).

Definition latin1 (_ : string) (text : string) : res (list Byte.byte) :=
  Ret (bytes_of text).

(** An encoding for ASCII text only: any other character is refused. *)
Definition ascii_codec (_ : string) (text : string) : res (list Byte.byte) :=
  if forallb (fun c => (N_of_ascii c <? 128)%N) (list_ascii_of_string text)
  then Ret (bytes_of text) else Raise UnicodeEncodeError.

(** A vault in which every project has the same [loki_host]. *)
Definition vault (_ : option nat) : res (gmap string string) :=
  Ret {[ "loki_host" := "http://loki:3100" ]}.

Definition sample (limit : Z) (ds : data_structure) : fetcher :=
  {| url := "http://loki:3100/loki/api/v1/query_range";
     date_format := default_date_format;
     query_limit := limit;
     next_chunk_step_ns := default_next_chunk_step_ns;
     data_parse_structure := ds;
     _logs := (if bool_decide (ds = py_list) then LogsList [] else LogsDict ∅);
     _result := None |}.

(** Keywords that hold a [url] and nothing else. *)
Definition only_url (u : string) : kwargs :=
  {| kw_url := Some u; kw_api_path := None; kw_date_format := None;
     kw_query_limit := None; kw_next_chunk_step_ns := None;
     kw_data_parse_structure := None; kw_other := [] |}.

(** Keywords that hold an [api_path] and nothing else. *)
Definition only_api_path (path : string) : kwargs :=
  {| kw_url := None; kw_api_path := Some path; kw_date_format := None;
     kw_query_limit := None; kw_next_chunk_step_ns := None;
     kw_data_parse_structure := None; kw_other := [] |}.

(** A message with a character outside ASCII. *)
Definition accented : string := String "233" "t" +:+ String "233" EmptyString.

(** A service whose every page is empty. *)
Definition always_empty (_ : list request) (_ : request) : reply := page [].

Definition fresh (self : fetcher) : session := {| self_ := self; sent := [] |}.

(** A document whose two entries are the same pair. *)
Definition twice : response_data := document [("7", "a"); ("7", "a")].

(** Two full pages of two entries, then a page of one. *)
Definition three_pages : list reply :=
  [ page [("10", "a"); ("20", "b")];
    page [("40", "c"); ("30", "d")];
    page [("50", "e")] ].

(** A full page, then a body that is not JSON. *)
Definition page_then_garbage : list reply :=
  [ page [("10", "a"); ("20", "b")]; Replied 200 (Raise JSONDecodeError) ].

Section Fetcher.
(** [VaultClient(project=p).get_all_secrets()], defined in [vault_tools]:
    a parameter here; it returns the secrets or raises. *)
Context {Project : Type}
        (get_all_secrets : option Project -> res (gmap string string)).
(** [datetime.fromtimestamp(time_ns / 1e9).strftime(date_format)]: it
    raises for a time the calendar does not reach and for a format
    [strftime] refuses. *)
Context (format_time : string -> Z -> res string).
(** [text.encode(enc)]. *)
Context (str_encode : string -> string -> res (list Byte.byte)).
Context `{SetOrder}.
(** The service: its reply to a request may depend on the requests it
    has received before. *)
Context (backend : list request -> request -> reply).

Definition make_url (project_or_id : option Project) (api_path : string)
    : res string :=
  secrets ← get_all_secrets project_or_id;
  loki_host ← getitem secrets "loki_host";
  mret (loki_host +:+ "/loki" +:+ api_path).

Definition __init__ (url : option string) (date_format : string)
    (query_limit next_chunk_step_ns : Z)
    (data_parse_structure : data_structure) : res fetcher :=
  if bool_decide (data_parse_structure ∈ available_data_structures) then
    url ← (if falsy url then make_url None default_api_path
           else mret (default EmptyString url));
    mret {| url := url; date_format := date_format;
            query_limit := query_limit;
            next_chunk_step_ns := next_chunk_step_ns;
            data_parse_structure := data_parse_structure;
            _logs := (if bool_decide (data_parse_structure = py_list)
                      then LogsList [] else LogsDict ∅);
            _result := None |}
  else Raise AssertionError.

(** [make_url(project, **kwargs)]: [api_path] is taken from the keywords
    when it is there, a keyword [project_or_id] would bind that parameter a
    second time, and the remaining keywords are swallowed. *)
Definition make_url_kw (project : Project) (kw : kwargs) : res string :=
  if bool_decide ("project_or_id" ∈ kw_other kw) then Raise TypeError
  else make_url (Some project) (default default_api_path (kw_api_path kw)).

(** [cls(url=url, **kwargs)]: a keyword [url] would bind [url] a second
    time, and [__init__] has no parameter for [api_path] or for the
    keywords of [kw_other]. *)
Definition cls_kw (url : string) (kw : kwargs) : res fetcher :=
  match kw_url kw, kw_api_path kw, kw_other kw with
  | None, None, [] =>
      __init__ (Some url)
        (default default_date_format (kw_date_format kw))
        (default default_query_limit (kw_query_limit kw))
        (default default_next_chunk_step_ns (kw_next_chunk_step_ns kw))
        (default py_list (kw_data_parse_structure kw))
  | _, _, _ => Raise TypeError
  end.

Definition from_project (project : Project) (kw : kwargs) : res fetcher :=
  let kwargs := pop_url kw in
  url ← make_url_kw project kwargs;
  cls_kw url kwargs.

(** One pass of the inner loop body of [_unpack_response]. *)
Definition add_log (time_ns : Z) (message : string) (logs : logs_store)
    : logs_store :=
  match logs with
  | LogsList l => LogsList (l ++ [(time_ns, message)])
  | LogsDict d =>
      LogsDict (<[time_ns := default ∅ (d !! time_ns) ∪ {[message]}]> d)
  end.

Fixpoint unpack_values (vs : list (string * string)) (length time_peak : Z)
    : M fetcher (Z * Z) :=
  match vs with
  | [] => mret (length, time_peak)
  | (time_ns, message) :: vs' =>
      time_ns ← lift (int time_ns);
      let time_peak := Z.max time_peak time_ns in
      _ ← modify (fun self => set_logs (add_log time_ns message (_logs self)) self);
      unpack_values vs' (length + 1) time_peak
  end.

Fixpoint unpack_result (streams : list stream) (length time_peak : Z)
    : M fetcher (Z * Z) :=
  match streams with
  | [] => mret (length, time_peak)
  | i :: streams' =>
      vs ← lift (field "values" (values i));
      '(length, time_peak) ← unpack_values vs length time_peak;
      unpack_result streams' length time_peak
  end.

Definition _unpack_response (response_data : response_data)
    : M fetcher (Z * Z) :=
  data ← lift (field "data" (data response_data));
  result ← lift (field "result" (result data));
  unpack_result result 0 0.

Definition requests_get (url : string) (params : params)
    : M session (res response_data) := fun s =>
  let req := {| req_url := url; req_params := params |} in
  let s' := {| self_ := self_ s; sent := sent s ++ [req] |} in
  match backend (sent s) req with
  | Refused e => (Raise e, s')
  | Replied _ json => (Ret json, s')
  end.

(** [fuel] is the depth of recursion the interpreter still allows: a
    call beyond it raises [RecursionError] before its body runs. *)
Fixpoint fetch_logs (fuel : nat) (query : string) (start : Z)
    (fetch_all : bool) (direction : Direction) : M session unit :=
  match fuel with
  | O => raise RecursionError
  | S fuel' =>
      _ ← on_self (modify (set_result None));
      self ← on_self get;
      let params := {| limit := query_limit self; direction := direction;
                       start := start; query := query |} in
      resp ← requests_get (url self) params;
      result ← lift resp;
      '(length, last_item_time_ns) ← on_self (_unpack_response result);
      if fetch_all && (length =? query_limit self) then
        let last_log_time_ns := last_item_time_ns + next_chunk_step_ns self in
        fetch_logs fuel' query last_log_time_ns true forward
      else mret tt
  end.

(** [list(map(lambda x: (format(x[0]), x[1]), entries))]: the entries are
    formatted in order, and the first time that does not format ends it. *)
Fixpoint format_all (date_format : string) (entries : list (Z * string))
    : res (list (string * string)) :=
  match entries with
  | [] => mret []
  | x :: rest =>
      t ← format_time date_format x.1;
      view ← format_all date_format rest;
      mret ((t, x.2) :: view)
  end.

(** The loop of the dictionary branch.  [result] is the list that
    [self._result] refers to while the loop runs: what is appended to it is
    in the cache at once, so a time that does not format leaves the groups
    in front of it cached. *)
Fixpoint append_groups (date_format : string)
    (items : list (Z * gset string)) (result : list (string * string))
    : M fetcher (list (string * string)) :=
  match items with
  | [] => mret result
  | (t, v) :: rest =>
      t ← lift (format_time date_format t);
      let result := result ++ map (fun i => (t, i)) (set_iter v) in
      _ ← modify (set_result (Some result));
      append_groups date_format rest result
  end.

(** What [logs] does when [not self._result]; it returns the list it has
    put into [self._result]. *)
Definition compute_logs : M fetcher (list (string * string)) :=
  self ← get;
  match _logs self with
  | LogsList l =>
      result ← lift (format_all (date_format self) (sorted fst l));
      _ ← modify (set_result (Some result));
      mret result
  | LogsDict d =>
      _ ← modify (set_result (Some []));
      append_groups (date_format self) (sorted fst (map_to_list d)) []
  end.

Definition logs : M fetcher (list (string * string)) :=
  self ← get;
  match _result self with
  | Some (x :: r) => mret (x :: r)
  | _ => compute_logs
  end.

Fixpoint write_logs (enc : string) (logs : list (string * string))
    : M BytesIO.t unit :=
  match logs with
  | [] => mret tt
  | log :: logs' =>
      data ← lift (str_encode enc (line log));
      _ ← modify (BytesIO.write data);
      write_logs enc logs'
  end.

(** The state is the fetcher together with the sink object. *)
Definition to_file (file : option BytesIO.t) (enc : string) (do_seek : bool)
    (self : fetcher) : res BytesIO.t * (fetcher * BytesIO.t) :=
  let file := default BytesIO.new file in
  match logs self with
  | (Ret view, self') =>
      match write_logs enc view file with
      | (Ret _, file') =>
          let file'' := if do_seek then BytesIO.seek 0 file' else file' in
          (Ret file'', (self', file''))
      | (Raise e, file') => (Raise e, (self', file'))
      end
  | (Raise e, self') => (Raise e, (self', file))
  end.

(** *** Derived notions used to state the properties *)

Definition add_logs (es : list (Z * string)) (logs : logs_store)
    : logs_store :=
  foldl (fun acc e => add_log e.1 e.2 acc) logs es.

(** [time_peak] after a page: the loop starts it at [0]. *)
Definition time_peak (es : list (Z * string)) : Z :=
  foldl (fun peak e => Z.max peak e.1) 0 es.

(** The view before the times are formatted. *)
Definition raw_logs (self : fetcher) : list (Z * string) :=
  match _logs self with
  | LogsList l => sorted fst l
  | LogsDict d =>
      flat_map (fun '(t, v) => map (fun i => (t, i)) (set_iter v))
               (sorted fst (map_to_list d))
  end.

(** The pairs of a run of groups, group after group. *)
Definition groups (items : list (Z * gset string)) : list (Z * string) :=
  flat_map (fun '(t, v) => map (fun i => (t, i)) (set_iter v)) items.

(** The times the store holds: with the dictionary its keys. *)
Definition times (logs : logs_store) : list Z :=
  match logs with
  | LogsList l => l.*1
  | LogsDict d => (map_to_list d).*1
  end.

(** The time [t] can be formatted with the fetcher's [date_format]. *)
Definition formats (self : fetcher) (t : Z) : Prop :=
  exists text, format_time (date_format self) t = Ret text.

(** The loop of the dictionary branch as a function: what it returns, and
    the list it leaves behind. *)
Fixpoint run_groups (date_format : string) (items : list (Z * gset string))
    (result : list (string * string))
    : res (list (string * string)) * list (string * string) :=
  match items with
  | [] => (Ret result, result)
  | (t, v) :: rest =>
      match format_time date_format t with
      | Ret text =>
          run_groups date_format rest
            (result ++ map (fun i => (text, i)) (set_iter v))
      | Raise e => (Raise e, result)
      end
  end.

(** The request one call of [fetch_logs] sends. *)
Definition request_of (self : fetcher) (query : string) (start : Z)
    (direction : Direction) : request :=
  {| req_url := url self;
     req_params := {| limit := query_limit self; direction := direction;
                      start := start; query := query |} |}.

(** The fetcher once the given pairs of a page are in: the cache was
    dropped when the call began. *)
Definition with_entries (es : list (Z * string)) (self : fetcher) : fetcher :=
  set_logs (add_logs es (_logs self)) (set_result None self).

(** [paged query k s start d es s' start' d']: called in session [s] with
    [start] and [d], [fetch_logs] receives [k] well-formed full pages in
    a row, holding the pairs [es]; the next call then runs in session
    [s'] with [start'] and [d']. *)
Inductive paged (query : string)
    : nat -> session -> Z -> Direction -> list (Z * string)
      -> session -> Z -> Direction -> Prop :=
  | paged_O s start d : paged query O s start d [] s start d
  | paged_S k s start d status body es s' start' d' :
      backend (sent s) (request_of (self_ s) query start d)
        = Replied status (Ret body) ->
      page_error body = None ->
      Z.of_nat (length (page_entries body)) = query_limit (self_ s) ->
      paged query k
        {| self_ := with_entries (page_entries body) (self_ s);
           sent := sent s ++ [request_of (self_ s) query start d] |}
        (time_peak (page_entries body) + next_chunk_step_ns (self_ s))
        forward es s' start' d' ->
      paged query (S k) s start d (page_entries body ++ es) s' start' d'.

(** The states a fetcher goes through: built by [__init__] (which
    [from_project] ends with), then any sequence of [fetch_logs], [logs]
    and [to_file], whatever they return. *)
Inductive reachable : fetcher -> Prop :=
  | reach_init url date_format query_limit next_chunk_step_ns ds self :
      __init__ url date_format query_limit next_chunk_step_ns ds = Ret self ->
      reachable self
  | reach_fetch_logs self fuel query start fetch_all direction sent r s' :
      reachable self ->
      fetch_logs fuel query start fetch_all direction
        {| self_ := self; sent := sent |} = (r, s') ->
      reachable (self_ s')
  | reach_logs self r self' :
      reachable self -> logs self = (r, self') -> reachable self'
  | reach_to_file self file enc do_seek r self' file' :
      reachable self ->
      to_file file enc do_seek self = (r, (self', file')) ->
      reachable self'.

(** A cached view is the formatted front of the view of the present store;
    it is all of it unless some time of the store cannot be formatted. *)
Definition cache_valid (self : fetcher) : Prop :=
  match _result self with
  | Some (x :: r) =>
      exists raw rest,
        raw_logs self = raw ++ rest
        /\ format_all (date_format self) raw = Ret (x :: r)
        /\ (rest = []
            \/ exists t e, t ∈ times (_logs self)
                           /\ format_time (date_format self) t = Raise e)
  | _ => True
  end.

(** ** Properties *)

(** *** [sorted] *)
Section sorted_facts.
Context {A : Type} (key : A -> Z).

Lemma insert_by_Permutation x l : insert_by key x l ≡ₚ x :: l.
Proof.
  induction l as [|y l IH]; simpl; [done|].
  destruct (key x <=? key y); [done|].
  rewrite IH. apply Permutation_swap.
Qed.

Lemma sorted_Permutation l : sorted key l ≡ₚ l.
Proof.
  induction l as [|x l IH]; simpl; [done|].
  by rewrite insert_by_Permutation, IH.
Qed.

Lemma insert_by_StronglySorted x l :
  StronglySorted (key_le key) l -> StronglySorted (key_le key) (insert_by key x l).
Proof.
  induction 1 as [|y l Hl IH Hy]; simpl.
  - repeat constructor.
  - destruct (Z.leb_spec (key x) (key y)) as [Hxy|Hxy].
    + constructor; [by constructor|].
      constructor; [done|].
      eapply Forall_impl; [exact Hy|].
      unfold key_le; intros; lia.
    + constructor; [done|].
      rewrite insert_by_Permutation.
      constructor; [unfold key_le; lia | done].
Qed.

Lemma sorted_StronglySorted l : StronglySorted (key_le key) (sorted key l).
Proof.
  induction l as [|x l IH]; simpl; [constructor|].
  by apply insert_by_StronglySorted.
Qed.

(** Stability: entries with equal keys keep their order. *)
Lemma sorted_stable k l :
  filter (fun a => key a = k) (sorted key l) = filter (fun a => key a = k) l.
Proof.
  induction l as [|x l IH]; simpl; [done|].
  rewrite filter_cons, <- IH. clear IH.
  generalize (sorted key l) as s.
  induction s as [|y s IHs]; simpl; [by rewrite filter_cons|].
  destruct (Z.leb_spec (key x) (key y)) as [Hxy|Hxy].
  - by rewrite filter_cons.
  - rewrite (filter_cons _ y), IHs, (filter_cons _ y).
    destruct (decide (key x = k)); destruct (decide (key y = k)); try done.
    lia.
Qed.
End sorted_facts.

(** *** [_unpack_response] against the reading of the document *)

Lemma set_logs_same self : set_logs (_logs self) self = self.
Proof. by destruct self. Qed.

Lemma set_logs_twice a b self : set_logs a (set_logs b self) = set_logs a self.
Proof. done. Qed.

(** Equal outcomes up to arithmetic on the counters. *)
Ltac counts := repeat first [ lia | progress f_equal ].

Lemma unpack_values_spec vs n peak self :
  unpack_values vs n peak self =
    (match (read_values vs).2 with
     | None => Ret (n + Z.of_nat (length (read_values vs).1),
                    foldl (fun p e => Z.max p e.1) peak (read_values vs).1)
     | Some e => Raise e
     end,
     set_logs (add_logs (read_values vs).1 (_logs self)) self).
Proof.
  revert n peak self.
  induction vs as [|[text message] vs IH]; intros n peak self; simpl.
  - unfold mret, M_ret. rewrite set_logs_same. counts.
  - unfold mbind, M_bind, lift, modify. destruct (int text) as [t|e]; simpl.
    + rewrite IH. simpl. f_equal.
      destruct (read_values vs).2; [done|]. counts.
    + by rewrite set_logs_same.
Qed.

Lemma add_logs_app es es' logs :
  add_logs (es ++ es') logs = add_logs es' (add_logs es logs).
Proof. apply foldl_app. Qed.

Lemma unpack_result_spec streams n peak self :
  unpack_result streams n peak self =
    (match (read_result streams).2 with
     | None => Ret (n + Z.of_nat (length (read_result streams).1),
                    foldl (fun p e => Z.max p e.1) peak (read_result streams).1)
     | Some e => Raise e
     end,
     set_logs (add_logs (read_result streams).1 (_logs self)) self).
Proof.
  revert n peak self.
  induction streams as [|i streams IH]; intros n peak self; simpl.
  - unfold mret, M_ret. rewrite set_logs_same. counts.
  - unfold mbind, M_bind, lift. destruct (values i) as [vs|]; simpl.
    + rewrite unpack_values_spec.
      destruct (read_values vs).2; simpl; [done|].
      rewrite IH. simpl. rewrite add_logs_app. f_equal.
      destruct (read_result streams).2; [done|].
      rewrite length_app, foldl_app. counts.
    + by rewrite set_logs_same.
Qed.

Lemma _unpack_response_spec body self :
  _unpack_response body self =
    (match page_error body with
     | None => Ret (Z.of_nat (length (page_entries body)),
                    time_peak (page_entries body))
     | Some e => Raise e
     end,
     set_logs (add_logs (page_entries body) (_logs self)) self).
Proof.
  unfold _unpack_response, page_error, page_entries, read_response.
  unfold mbind, M_bind, lift.
  destruct (data body) as [d|]; simpl; [|by rewrite set_logs_same].
  destruct (result d) as [streams|]; simpl; [|by rewrite set_logs_same].
  by rewrite unpack_result_spec.
Qed.

(** *** One call of [fetch_logs] *)

Lemma fetch_logs_step fuel query start fetch_all d s :
  fetch_logs (S fuel) query start fetch_all d s =
    let req := request_of (self_ s) query start d in
    let gone es := {| self_ := with_entries es (self_ s);
                      sent := sent s ++ [req] |} in
    match backend (sent s) req with
    | Refused e => (Raise e, gone [])
    | Replied _ (Raise e) => (Raise e, gone [])
    | Replied _ (Ret body) =>
        match page_error body with
        | Some e => (Raise e, gone (page_entries body))
        | None =>
            if fetch_all
               && (Z.of_nat (length (page_entries body))
                   =? query_limit (self_ s))
            then fetch_logs fuel query
                   (time_peak (page_entries body)
                    + next_chunk_step_ns (self_ s))
                   true forward (gone (page_entries body))
            else (Ret tt, gone (page_entries body))
        end
    end.
Proof.
  destruct s as [self w]. cbn -[_unpack_response].
  unfold mbind, M_bind, on_self, requests_get, lift, modify, get,
    request_of, with_entries. cbn -[_unpack_response].
  destruct (backend w _) as [e|status [body|e]]; cbn -[_unpack_response];
    try (by destruct self).
  rewrite _unpack_response_spec.
  destruct (page_error body); cbn; [done|].
  by destruct (fetch_all && _).
Qed.

Lemma kept_in_refl logs : kept_in logs logs.
Proof.
  destruct logs as [l|d]; simpl.
  - exists []. by rewrite app_nil_r.
  - intros t v Hv. by exists v.
Qed.

Lemma kept_in_trans a b c : kept_in a b -> kept_in b c -> kept_in a c.
Proof.
  destruct a as [l|d], b as [l'|d'], c as [l''|d'']; simpl; try done.
  - intros [x ->] [y ->]. exists (x ++ y). by rewrite app_assoc.
  - intros Hab Hbc t v Hv.
    destruct (Hab t v Hv) as (v' & Hv' & Hsub).
    destruct (Hbc t v' Hv') as (v'' & Hv'' & Hsub').
    exists v''. split; [done|set_solver].
Qed.

Lemma kept_in_add_log t m logs : kept_in logs (add_log t m logs).
Proof.
  destruct logs as [l|d]; simpl.
  - by eexists.
  - intros t' v Hv. destruct (decide (t = t')) as [->|Hne].
    + rewrite lookup_insert_eq, Hv. simpl. eexists. split; [done|set_solver].
    + rewrite lookup_insert_ne by done. by exists v.
Qed.

Lemma kept_in_add_logs es logs : kept_in logs (add_logs es logs).
Proof.
  revert logs. induction es as [|[t m] es IH]; intros logs; simpl.
  - apply kept_in_refl.
  - eapply kept_in_trans; [apply kept_in_add_log|apply IH].
Qed.

Lemma with_entries_logs es self :
  _logs (with_entries es self) = add_logs es (_logs self).
Proof. done. Qed.

Lemma with_entries_result es self : _result (with_entries es self) = None.
Proof. done. Qed.

(** A full, well-formed page hands the call over to the follow-up call. *)
Lemma fetch_logs_follow_up fuel query start d s body status :
  backend (sent s) (request_of (self_ s) query start d)
    = Replied status (Ret body) ->
  page_error body = None ->
  Z.of_nat (length (page_entries body)) = query_limit (self_ s) ->
  fetch_logs (S fuel) query start true d s =
    fetch_logs fuel query
      (time_peak (page_entries body) + next_chunk_step_ns (self_ s))
      true forward
      {| self_ := with_entries (page_entries body) (self_ s);
         sent := sent s ++ [request_of (self_ s) query start d] |}.
Proof.
  intros Hreply Hok Hfull. rewrite fetch_logs_step. cbn zeta.
  rewrite Hreply, Hok. simpl. by rewrite (proj2 (Z.eqb_eq _ _) Hfull).
Qed.

Lemma fetch_logs_paged query k s start d es s' start' d' fuel :
  paged query k s start d es s' start' d' ->
  fetch_logs (k + fuel) query start true d s
    = fetch_logs fuel query start' true d' s'.
Proof.
  induction 1
    as [|k s start d status body es s' start' d' Hreply Hok Hfull _ IH];
    [done|].
  change (S k + fuel)%nat with (S (k + fuel)).
  by rewrite (fetch_logs_follow_up _ _ _ _ _ body status).
Qed.

Lemma paged_session query k s start d es s' start' d' :
  paged query k s start d es s' start' d' ->
  _logs (self_ s') = add_logs es (_logs (self_ s))
  /\ length (sent s') = (length (sent s) + k)%nat
  /\ url (self_ s') = url (self_ s)
  /\ query_limit (self_ s') = query_limit (self_ s).
Proof.
  induction 1
    as [|k s start d status body es s' start' d' Hreply Hok Hfull _ IH];
    [done|].
  destruct IH as (Hlogs & Hsent & Hurl & Hlimit). simpl in *.
  rewrite Hlogs, Hsent, Hurl, Hlimit, add_logs_app, length_app. simpl.
  repeat split; lia.
Qed.

(** A page that does not fail yields every entry of its document. *)
Lemma read_values_length vs :
  (read_values vs).2 = None -> length (read_values vs).1 = length vs.
Proof.
  induction vs as [|[text message] vs IH]; simpl; [done|].
  destruct (int text); simpl; [|done]. intros Hok. by rewrite IH.
Qed.

Lemma page_entries_count body :
  page_error body = None -> length (page_entries body) = values_count body.
Proof.
  unfold page_error, page_entries, read_response, values_count.
  destruct (data body) as [[[streams|]]|]; simpl; try done.
  induction streams as [|i streams IH]; simpl; [done|].
  destruct (values i) as [vs|]; simpl; [|done].
  destruct (read_values vs).2 eqn:Hvs; simpl; [done|].
  intros Hok. by rewrite length_app, read_values_length, IH.
Qed.

(** *** Construction *)

Lemma make_url_spec project_or_id api_path :
  make_url project_or_id api_path =
    match get_all_secrets project_or_id with
    | Ret secrets =>
        match secrets !! "loki_host" with
        | Some loki_host => Ret (loki_host +:+ "/loki" +:+ api_path)
        | None => Raise (KeyError "loki_host")
        end
    | Raise e => Raise e
    end.
Proof.
  unfold make_url, mbind, res_bind, getitem.
  destruct (get_all_secrets project_or_id) as [secrets|e]; [|done].
  by destruct (secrets !! "loki_host").
Qed.

(** A made URL is never the empty text, so [__init__] keeps it. *)
Lemma made_url_kept loki_host api_path :
  falsy (Some (loki_host +:+ "/loki" +:+ api_path)) = false.
Proof. by destruct loki_host. Qed.

(** Every request of a call goes to the fetcher's URL, which the call
    leaves as it is. *)
Lemma fetch_logs_url fuel query start fetch_all d s r s' :
  fetch_logs fuel query start fetch_all d s = (r, s') ->
  url (self_ s') = url (self_ s)
  /\ exists new, sent s' = sent s ++ new
               /\ Forall (fun q => req_url q = url (self_ s)) new.
Proof.
  revert query start fetch_all d s.
  induction fuel as [|fuel IH]; intros query start fetch_all d s.
  { intros [= <- <-]. split; [done|]. exists []. by rewrite app_nil_r. }
  rewrite fetch_logs_step. cbn zeta.
  assert (Hone : forall es out,
    (out, {| self_ := with_entries es (self_ s);
             sent := sent s ++ [request_of (self_ s) query start d] |}) = (r, s') ->
    url (self_ s') = url (self_ s)
    /\ exists new, sent s' = sent s ++ new
                 /\ Forall (fun q => req_url q = url (self_ s)) new).
  { intros es out [= <- <-]. split; [done|]. eexists. split; [done|].
    by repeat constructor. }
  destruct (backend _ _) as [e|status [body|e]]; eauto.
  destruct (page_error body); eauto.
  destruct (fetch_all && _); eauto.
  intros Hrec. apply IH in Hrec as (Hurl & new & Hsent & Hnew). simpl in *.
  split; [done|]. exists (request_of (self_ s) query start d :: new).
  split; [by rewrite Hsent, <- app_assoc|]. by constructor.
Qed.

(** C2 (as the code has it): when [__init__] gets no URL ([None] or the
    empty text), the URL is made from the secret [loki_host], resolved with
    no project given, followed by [/loki] and then by [/api/v1/query_range];
    every request of every later fetch goes to that URL; and a failure to
    resolve the secrets, or a missing [loki_host], is raised by [__init__]. *)
Theorem init_derives_url given date_format query_limit next_chunk_step_ns ds :
  falsy given = true ->
  ds ∈ available_data_structures ->
  match get_all_secrets None with
  | Raise e =>
      __init__ given date_format query_limit next_chunk_step_ns ds = Raise e
  | Ret secrets =>
      match secrets !! "loki_host" with
      | None =>
          __init__ given date_format query_limit next_chunk_step_ns ds
            = Raise (KeyError "loki_host")
      | Some loki_host =>
          exists self,
            __init__ given date_format query_limit next_chunk_step_ns ds
              = Ret self
            /\ url self = loki_host +:+ "/loki" +:+ "/api/v1/query_range"
            /\ forall fuel query start fetch_all d received r s',
                 fetch_logs fuel query start fetch_all d
                   {| self_ := self; sent := received |} = (r, s') ->
                 exists new,
                   sent s' = received ++ new
                   /\ Forall (fun q => req_url q
                        = loki_host +:+ "/loki" +:+ "/api/v1/query_range") new
      end
  end.
Proof.
  intros Hgiven Hds. unfold __init__.
  rewrite (bool_decide_eq_true_2 _ Hds), Hgiven, make_url_spec.
  destruct (get_all_secrets None) as [secrets|e]; [|done].
  destruct (secrets !! "loki_host") as [loki_host|]; [|done].
  eexists. split; [done|]. split; [done|].
  intros fuel query start fetch_all d received r s' Hrun.
  by apply fetch_logs_url in Hrun as [_ Hnew].
Qed.

(** C10: [from_project] drops a [url] keyword before anything reads it, so
    the result is the same whatever [url] the caller passes; an instance it
    returns has the URL made from the project's secret [loki_host], hence
    never a passed [url] that differs from it; and it does return an
    instance when the secret resolves and the other keywords are accepted. *)
Theorem from_project_discards_url project kw :
  (forall u, from_project project (with_url u kw) = from_project project kw)
  /\ (forall u self,
        from_project project (with_url u kw) = Ret self ->
        exists secrets loki_host,
          get_all_secrets (Some project) = Ret secrets
          /\ secrets !! "loki_host" = Some loki_host
          /\ url self = loki_host +:+ "/loki" +:+ "/api/v1/query_range"
          /\ forall passed, u = Some passed -> passed <> url self ->
               url self <> passed)
  /\ (forall u secrets loki_host,
        get_all_secrets (Some project) = Ret secrets ->
        secrets !! "loki_host" = Some loki_host ->
        kw_api_path kw = None -> kw_other kw = [] ->
        default py_list (kw_data_parse_structure kw)
          ∈ available_data_structures ->
        exists self,
          from_project project (with_url u kw) = Ret self
          /\ url self = loki_host +:+ "/loki" +:+ "/api/v1/query_range").
Proof.
  assert (Hpop : forall u, pop_url (with_url u kw) = pop_url kw) by done.
  split; [by intros u; unfold from_project; rewrite Hpop|].
  split.
  - intros u self. unfold from_project. rewrite Hpop.
    unfold make_url_kw, cls_kw, __init__, mbind, res_bind.
    change (kw_other (pop_url kw)) with (kw_other kw).
    change (kw_api_path (pop_url kw)) with (kw_api_path kw).
    change (kw_url (pop_url kw)) with (@None string).
    destruct (bool_decide _); [done|]. rewrite make_url_spec.
    destruct (get_all_secrets (Some project)) as [secrets|e]; [|done].
    destruct (secrets !! "loki_host") as [loki_host|] eqn:Hhost; [|done].
    destruct (kw_api_path kw); [done|]. destruct (kw_other kw); [|done].
    destruct (bool_decide _); [|done].
    rewrite made_url_kept. intros [= <-]. simpl.
    exists secrets, loki_host. repeat split; done.
  - intros u secrets loki_host Hsecrets Hhost Hpath Hother Hds.
    unfold from_project. rewrite Hpop.
    unfold make_url_kw, cls_kw, __init__, mbind, res_bind.
    change (kw_other (pop_url kw)) with (kw_other kw).
    change (kw_api_path (pop_url kw)) with (kw_api_path kw).
    change (kw_url (pop_url kw)) with (@None string).
    rewrite Hother, Hpath.
    rewrite bool_decide_eq_false_2 by set_solver.
    rewrite make_url_spec, Hsecrets, Hhost.
    change (kw_data_parse_structure (pop_url kw))
      with (kw_data_parse_structure kw).
    rewrite (bool_decide_eq_true_2 _ Hds).
    rewrite made_url_kept. eexists; split; done.
Qed.

(** *** What the store holds *)

Lemma flat_map_bind {A B} (f : A -> list B) l : flat_map f l = l ≫= f.
Proof. induction l as [|x l IH]; [done|]. simpl. by rewrite IH. Qed.

Lemma elem_of_stored_dict d t m :
  (t, m) ∈ stored (LogsDict d) <-> exists v, d !! t = Some v /\ m ∈ v.
Proof.
  unfold stored. rewrite flat_map_bind, list_elem_of_bind. split.
  - intros ([t' v] & Hin & Hd). apply elem_of_map_to_list in Hd.
    apply list_elem_of_fmap in Hin as (i & [= -> ->] & Hi).
    exists v. split; [done|]. by apply elem_of_elements.
  - intros (v & Hd & Hm). exists (t, v). split.
    + apply list_elem_of_fmap. exists m. split; [done|].
      by apply elem_of_elements.
    + by apply elem_of_map_to_list.
Qed.

Lemma NoDup_stored_dict d : NoDup (stored (LogsDict d)).
Proof.
  unfold stored. rewrite flat_map_bind. apply NoDup_bind.
  - intros [t1 v1] [t2 v2] [t m] H1 H2 Hin1 Hin2.
    apply list_elem_of_fmap in Hin1 as (i1 & [= -> ->] & _).
    apply list_elem_of_fmap in Hin2 as (i2 & [= -> _] & _).
    apply elem_of_map_to_list in H1, H2. congruence.
  - intros [t v] _. apply NoDup_fmap_2; [|apply NoDup_elements].
    by intros a b [= ->].
  - apply NoDup_map_to_list.
Qed.

Lemma add_logs_cons e es logs :
  add_logs (e :: es) logs = add_logs es (add_log e.1 e.2 logs).
Proof. done. Qed.

Lemma add_logs_list es l : add_logs es (LogsList l) = LogsList (l ++ es).
Proof.
  revert l. induction es as [|[t m] es IH]; intros l.
  - by rewrite app_nil_r.
  - rewrite add_logs_cons. simpl add_log. by rewrite IH, <- app_assoc.
Qed.

Lemma add_logs_dict es d : exists d', add_logs es (LogsDict d) = LogsDict d'.
Proof.
  revert d. induction es as [|[t m] es IH]; intros d; [by eexists|].
  rewrite add_logs_cons. apply IH.
Qed.

Lemma pairs_add_log t m d :
  pairs (add_log t m (LogsDict d)) = pairs (LogsDict d) ∪ {[ (t, m) ]}.
Proof.
  apply set_eq. intros [t' m']. unfold pairs.
  rewrite elem_of_union, !elem_of_list_to_set, elem_of_singleton.
  simpl add_log. rewrite !elem_of_stored_dict. split.
  - intros (v & Hv & Hm). destruct (decide (t = t')) as [->|Hne].
    + rewrite lookup_insert_eq in Hv. injection Hv as <-.
      apply elem_of_union in Hm as [Hm|Hm].
      * left. destruct (d !! t') as [v|] eqn:Hd; [by exists v|set_solver].
      * right. set_solver.
    + rewrite lookup_insert_ne in Hv by done. left. by exists v.
  - intros [(v & Hv & Hm)|[= -> ->]].
    + destruct (decide (t = t')) as [->|Hne].
      * rewrite lookup_insert_eq, Hv. eexists. split; [done|set_solver].
      * rewrite lookup_insert_ne by done. by exists v.
    + rewrite lookup_insert_eq. eexists. split; [done|set_solver].
Qed.

Lemma pairs_add_logs es d :
  pairs (add_logs es (LogsDict d)) = pairs (LogsDict d) ∪ list_to_set es.
Proof.
  revert d. induction es as [|[t m] es IH]; intros d.
  - simpl. set_solver.
  - rewrite add_logs_cons. simpl add_log. rewrite IH.
    change (LogsDict (<[t:=default ∅ (d !! t) ∪ {[m]}]> d))
      with (add_log t m (LogsDict d)).
    rewrite pairs_add_log. set_solver.
Qed.

Lemma length_stored_dict d : length (stored (LogsDict d)) = size (pairs (LogsDict d)).
Proof. unfold pairs. by rewrite size_list_to_set by apply NoDup_stored_dict. Qed.

Lemma size_list_to_set_le (es : list (Z * string)) :
  (size (list_to_set (C:=gset (Z * string)) es) <= length es)%nat.
Proof.
  induction es as [|e es IH]; [done|].
  rewrite list_to_set_cons, size_union_alt, size_singleton. simpl length.
  pose proof (subseteq_size
    (list_to_set (C:=gset (Z * string)) es ∖ {[e]}) (list_to_set es)) as Hle.
  specialize (Hle ltac:(set_solver)). lia.
Qed.

(** C4 (as the code has it): for every page that [_unpack_response] goes
    through, the count it returns is the number of [values] entries of the
    document; with the list store that many pairs are added; with the
    dictionary of sets the pairs held afterwards are those held before
    together with those of the page, so the number added is the number of
    distinct pairs of the page that were not held yet, which is at most the
    number of [values] entries. *)
Theorem unpack_counts body self n peak self' :
  _unpack_response body self = (Ret (n, peak), self') ->
  n = Z.of_nat (values_count body)
  /\ match _logs self with
     | LogsList _ =>
         length (stored (_logs self'))
           = (length (stored (_logs self)) + values_count body)%nat
     | LogsDict _ =>
         pairs (_logs self')
           = pairs (_logs self) ∪ list_to_set (page_entries body)
         /\ length (stored (_logs self'))
             = (length (stored (_logs self))
                + size (list_to_set (page_entries body) ∖ pairs (_logs self)))%nat
         /\ (length (stored (_logs self'))
             <= length (stored (_logs self)) + values_count body)%nat
     end.
Proof.
  rewrite _unpack_response_spec.
  destruct (page_error body) eqn:Hok; [done|]. intros [= <- _ <-].
  rewrite <- (page_entries_count body Hok). split; [done|]. simpl.
  destruct (_logs self) as [l|d].
  - rewrite add_logs_list. simpl. by rewrite length_app.
  - destruct (add_logs_dict (page_entries body) d) as [d' Hd'].
    assert (Hpairs : pairs (LogsDict d')
                     = pairs (LogsDict d) ∪ list_to_set (page_entries body))
      by (by rewrite <- Hd', pairs_add_logs).
    rewrite Hd', !length_stored_dict, Hpairs, size_union_alt.
    split; [done|]. split; [done|].
    pose proof (size_list_to_set_le (page_entries body)) as Hle.
    pose proof (subseteq_size
      (list_to_set (C:=gset (Z * string)) (page_entries body)
         ∖ pairs (LogsDict d))
      (list_to_set (page_entries body))) as Hsub.
    specialize (Hsub ltac:(set_solver)). lia.
Qed.

(** *** The view *)

Lemma bind_pointwise_Permutation {A B} (f g : A -> list B) l :
  (forall x, f x ≡ₚ g x) -> l ≫= f ≡ₚ l ≫= g.
Proof.
  intros Hfg. induction l as [|x l IH]; [done|]. csimpl. by rewrite Hfg, IH.
Qed.

Lemma raw_logs_Permutation self : raw_logs self ≡ₚ stored (_logs self).
Proof.
  unfold raw_logs, stored. destruct (_logs self) as [l|d].
  - apply sorted_Permutation.
  - rewrite !flat_map_bind, sorted_Permutation.
    apply bind_pointwise_Permutation. intros [t v].
    change (map ?f ?l) with (f <$> l). by rewrite set_iter_perm.
Qed.

Lemma group_StronglySorted t (ms : list string) rest :
  StronglySorted (key_le fst) rest ->
  Forall (fun e : Z * string => t <= e.1) rest ->
  StronglySorted (key_le fst) (map (fun i => (t, i)) ms ++ rest).
Proof.
  intros Hrest Hle. induction ms as [|m ms IH]; [done|]. simpl.
  constructor; [done|]. apply Forall_app. split; [|done].
  apply Forall_forall. intros [t' m'] Hin.
  apply list_elem_of_fmap in Hin as (i & [= -> ->] & _). unfold key_le. simpl. lia.
Qed.

Lemma raw_logs_sorted self : StronglySorted (key_le fst) (raw_logs self).
Proof.
  unfold raw_logs. destruct (_logs self) as [l|d].
  - apply sorted_StronglySorted.
  - pose proof (sorted_StronglySorted fst (map_to_list d)) as Hitems.
    induction Hitems as [|[t v] items Hitems IH Hle]; [constructor|].
    simpl. apply group_StronglySorted; [done|].
    rewrite flat_map_bind. apply Forall_bind.
    eapply Forall_impl; [exact Hle|]. intros [t' v'] Htt'. simpl.
    apply Forall_forall. intros [t'' m''] Hin.
    by apply list_elem_of_fmap in Hin as (i & [= -> ->] & _).
Qed.

(** *** The cache *)

Lemma fetch_logs_cache fuel query start fetch_all d s r s' :
  fetch_logs fuel query start fetch_all d s = (r, s') ->
  s' = s \/ _result (self_ s') = None.
Proof.
  revert query start fetch_all d s.
  induction fuel as [|fuel IH]; intros query start fetch_all d s.
  { intros [= _ <-]. by left. }
  rewrite fetch_logs_step. cbn zeta. intros Hrun. right. revert Hrun.
  destruct (backend _ _) as [e|status [body|e]]; try by intros [= _ <-].
  destruct (page_error body); [by intros [= _ <-]|].
  destruct (fetch_all && _); [|by intros [= _ <-]].
  intros Hrec. by apply IH in Hrec as [->|Hnone].
Qed.

(** *** Formatting *)

Lemma format_all_app df a b :
  format_all df (a ++ b)
  = (x ← format_all df a; y ← format_all df b; mret (x ++ y)).
Proof.
  induction a as [|e a IH]; simpl.
  - unfold mbind, res_bind. by destruct (format_all df b).
  - rewrite IH. unfold mbind, res_bind.
    destruct (format_time df e.1); [|done].
    destruct (format_all df a); [|done]. by destruct (format_all df b).
Qed.

Lemma format_all_group df t text (ms : list string) :
  format_time df t = Ret text ->
  format_all df (map (fun i => (t, i)) ms) = Ret (map (fun i => (text, i)) ms).
Proof.
  intros Ht. induction ms as [|m ms IH]; simpl; [done|].
  by rewrite Ht, IH.
Qed.

Lemma format_all_Ret df raw view :
  format_all df raw = Ret view ->
  Forall2 (fun e p => format_time df e.1 = Ret p.1 /\ p.2 = e.2) raw view.
Proof.
  revert view. induction raw as [|e raw IH]; intros view; simpl.
  - intros [= <-]. constructor.
  - unfold mbind, res_bind. destruct (format_time df e.1) eqn:Ht; [|done].
    destruct (format_all df raw); [|done]. intros [= <-].
    constructor; [done|by apply IH].
Qed.

Lemma format_all_Raise df raw e :
  format_all df raw = Raise e ->
  exists x, x ∈ raw /\ format_time df x.1 = Raise e.
Proof.
  induction raw as [|x raw IH]; simpl; [done|].
  unfold mbind, res_bind. destruct (format_time df x.1) eqn:Ht.
  - destruct (format_all df raw); [done|]. intros [= <-].
    destruct IH as (y & Hy & Hbad); [done|].
    exists y. split; [by apply list_elem_of_further|done].
  - intros [= <-]. exists x. split; [apply list_elem_of_here|done].
Qed.

Lemma format_all_length df raw view :
  format_all df raw = Ret view -> length view = length raw.
Proof. intros Hview. symmetry. by eapply Forall2_length, format_all_Ret. Qed.

(** *** The loop of the dictionary branch *)

Lemma append_groups_spec df items acc self :
  append_groups df items acc (set_result (Some acc) self)
  = ((run_groups df items acc).1,
     set_result (Some (run_groups df items acc).2) self).
Proof.
  revert acc. induction items as [|[t v] items IH]; intros acc; [done|].
  simpl. unfold mbind, M_bind, lift, modify.
  destruct (format_time df t) as [text|e]; [|done]. apply IH.
Qed.

Lemma run_groups_spec df items acc :
  exists ready todo view,
    items = ready ++ todo
    /\ format_all df (groups ready) = Ret view
    /\ (run_groups df items acc).2 = acc ++ view
    /\ match (run_groups df items acc).1 with
       | Ret result =>
           todo = [] /\ result = acc ++ view
           /\ Forall (fun t => exists text, format_time df t = Ret text)
                items.*1
       | Raise e =>
           exists t v todo',
             todo = (t, v) :: todo' /\ format_time df t = Raise e
       end.
Proof.
  revert acc. induction items as [|[t v] items IH]; intros acc.
  { exists [], [], []. simpl. by rewrite app_nil_r. }
  simpl. destruct (format_time df t) as [text|e] eqn:Ht.
  - destruct (IH (acc ++ map (fun i => (text, i)) (set_iter v)))
      as (ready & todo & view & -> & Hview & Hfinal & Hres).
    exists ((t, v) :: ready), todo,
      (map (fun i => (text, i)) (set_iter v) ++ view).
    split; [done|]. split.
    { change (groups ((t, v) :: ready))
        with (map (fun i => (t, i)) (set_iter v) ++ groups ready).
      by rewrite format_all_app, (format_all_group _ _ _ _ Ht), Hview. }
    rewrite app_assoc. split; [done|].
    destruct (run_groups _ _ _).1; [|done].
    destruct Hres as (-> & -> & Hall).
    split; [done|]. split; [done|]. constructor; [by eexists|done].
  - exists [], ((t, v) :: items), []. simpl. rewrite app_nil_r.
    repeat split; try done. by eexists _, _, _.
Qed.

Lemma groups_app a b : groups (a ++ b) = groups a ++ groups b.
Proof. unfold groups. by rewrite flat_map_app. Qed.

(** *** What [logs] computes *)

(** What [compute_logs] does: it only writes the cache; when it returns,
    every time of the store could be formatted and the view is the
    formatted [raw_logs]; when it raises, some time of the store could not
    be formatted, and the cache is as it was or holds the formatted front
    of [raw_logs]. *)
Lemma compute_logs_spec self :
  exists r c,
    compute_logs self = (r, set_result c self)
    /\ match r with
       | Ret view =>
           c = Some view
           /\ format_all (date_format self) (raw_logs self) = Ret view
           /\ Forall (formats self) (times (_logs self))
       | Raise e =>
           (exists t, t ∈ times (_logs self)
                      /\ format_time (date_format self) t = Raise e)
           /\ (c = _result self
               \/ exists raw rest view,
                    raw_logs self = raw ++ rest
                    /\ format_all (date_format self) raw = Ret view
                    /\ c = Some view)
       end.
Proof.
  unfold compute_logs, raw_logs, times, mbind, M_bind, get, lift, modify,
    mret, M_ret.
  destruct (_logs self) as [l|d] eqn:Hlogs.
  - destruct (format_all (date_format self) (sorted fst l)) as [view|e]
      eqn:Hview.
    + exists (Ret view), (Some view). repeat split; try done.
      apply format_all_Ret in Hview.
      apply Forall_forall. intros t Ht.
      apply list_elem_of_fmap in Ht as (x & -> & Hx).
      rewrite <- (sorted_Permutation fst l) in Hx.
      apply list_elem_of_lookup in Hx as [i Hi].
      destruct (Forall2_lookup_l _ _ _ _ _ Hview Hi) as (p & _ & Hp & _).
      by exists p.1.
    + exists (Raise e), (_result self). split; [by destruct self|].
      split; [|by left].
      apply format_all_Raise in Hview as (x & Hx & Hbad).
      exists x.1. split; [|done].
      apply list_elem_of_fmap. exists x. split; [done|].
      by rewrite <- (sorted_Permutation fst l).
  - rewrite (append_groups_spec (date_format self) _ [] self).
    destruct (run_groups_spec (date_format self)
                (sorted fst (map_to_list d)) [])
      as (ready & todo & view & Hitems & Hview & Hfinal & Hres).
    eexists _, _. split; [done|]. rewrite Hfinal. simpl.
    destruct (run_groups _ _ _).1 as [result|e].
    + destruct Hres as (-> & -> & Hall). rewrite app_nil_r in Hitems.
      split; [done|]. split; [by rewrite Hitems|].
      apply Forall_forall. intros t Ht.
      rewrite Forall_forall in Hall. apply Hall.
      by rewrite sorted_Permutation.
    + destruct Hres as (t & v & todo' & -> & Hbad). split.
      * exists t. split; [|done].
        rewrite <- (sorted_Permutation fst (map_to_list d)), Hitems.
        apply list_elem_of_fmap. exists (t, v). split; [done|].
        apply elem_of_app. right. apply list_elem_of_here.
      * right. exists (groups ready), (groups ((t, v) :: todo')), view.
        split; [|done].
        change (flat_map _ ?items) with (groups items).
        by rewrite Hitems, groups_app.
Qed.

(** The view [compute_logs] returns is the formatted [raw_logs], and it
    returns when every time of the store can be formatted. *)
Lemma compute_logs_view self :
  (forall view f,
     compute_logs self = (Ret view, f) ->
     format_all (date_format self) (raw_logs self) = Ret view)
  /\ (Forall (formats self) (times (_logs self)) ->
      exists view f, compute_logs self = (Ret view, f)).
Proof.
  destruct (compute_logs_spec self) as (r & c & Hrun & Hspec).
  rewrite Hrun. split.
  - intros view f [= -> _]. by destruct Hspec as (_ & Hview & _).
  - intros Hall. destruct r as [view|e]; [by eexists _, _|].
    destruct Hspec as ((t & Ht & Hbad) & _).
    rewrite Forall_forall in Hall. destruct (Hall t Ht) as [text Htext].
    congruence.
Qed.

Lemma set_result_same self : set_result (_result self) self = self.
Proof. by destruct self. Qed.

Lemma compute_logs_valid self :
  cache_valid self ->
  exists r c,
    compute_logs self = (r, set_result c self)
    /\ cache_valid (set_result c self)
    /\ match r with
       | Ret view =>
           c = Some view
           /\ format_all (date_format self) (raw_logs self) = Ret view
       | Raise e =>
           exists t, t ∈ times (_logs self)
                     /\ format_time (date_format self) t = Raise e
       end.
Proof.
  intros Hvalid.
  destruct (compute_logs_spec self) as (r & c & Hrun & Hspec).
  exists r, c. split; [done|]. destruct r as [view|e].
  - destruct Hspec as (-> & Hview & _). split; [|done].
    unfold cache_valid. simpl. destruct view as [|x view]; [done|].
    exists (raw_logs self), []. rewrite app_nil_r. repeat split; try done.
    by left.
  - destruct Hspec as ((t & Ht & Hbad) & Hcache). split; [|by exists t].
    destruct Hcache as [->|(raw & rest & view & Hraw & Hview & ->)].
    { by rewrite set_result_same. }
    unfold cache_valid. simpl. destruct view as [|x view]; [done|].
    exists raw, rest. repeat split; try done. right. by exists t, e.
Qed.

(** What [logs] does in a state whose cache is valid. *)
Lemma logs_spec self :
  cache_valid self ->
  exists r c,
    logs self = (r, set_result c self)
    /\ cache_valid (set_result c self)
    /\ match r with
       | Ret view =>
           c = Some view
           /\ exists raw rest,
                raw_logs self = raw ++ rest
                /\ format_all (date_format self) raw = Ret view
                /\ (rest = []
                    \/ exists t e,
                         t ∈ times (_logs self)
                         /\ format_time (date_format self) t = Raise e)
       | Raise e =>
           exists t, t ∈ times (_logs self)
                     /\ format_time (date_format self) t = Raise e
       end.
Proof.
  intros Hvalid.
  assert (Hcompute :
    exists r c,
      compute_logs self = (r, set_result c self)
      /\ cache_valid (set_result c self)
      /\ match r with
         | Ret view =>
             c = Some view
             /\ exists raw rest,
                  raw_logs self = raw ++ rest
                  /\ format_all (date_format self) raw = Ret view
                  /\ (rest = []
                      \/ exists t e,
                           t ∈ times (_logs self)
                           /\ format_time (date_format self) t = Raise e)
         | Raise e =>
             exists t, t ∈ times (_logs self)
                       /\ format_time (date_format self) t = Raise e
         end).
  { destruct (compute_logs_valid self Hvalid) as (r & c & Hrun & Hc & Hr).
    exists r, c. repeat split; try done. destruct r as [view|e]; [|done].
    destruct Hr as [-> Hview]. split; [done|].
    exists (raw_logs self), []. rewrite app_nil_r. repeat split; try done.
    by left. }
  unfold logs, mbind, M_bind, get.
  destruct (_result self) as [[|x r]|] eqn:Hcache; try done.
  exists (Ret (x :: r)), (Some (x :: r)).
  rewrite <- Hcache, set_result_same. repeat split; try done.
  unfold cache_valid in Hvalid. by rewrite Hcache in Hvalid.
Qed.

Lemma reachable_cache_valid self : reachable self -> cache_valid self.
Proof.
  induction 1 as
    [given df ql step ds self Hinit
    |self fuel query start fetch_all d received r s' _ IH Hrun
    |self r self' _ IH Hlogs
    |self file enc do_seek r self' file' _ IH Hfile].
  - unfold __init__, mbind, res_bind in Hinit.
    destruct (bool_decide _); [|done].
    destruct (if falsy given then _ else _); [|done].
    by injection Hinit as <-.
  - apply fetch_logs_cache in Hrun as [->|Hnone]; [done|].
    unfold cache_valid. by rewrite Hnone.
  - destruct (logs_spec self IH) as (r' & c & Heq & Hvalid & _).
    rewrite Heq in Hlogs. by injection Hlogs as _ <-.
  - destruct (logs_spec self IH) as (r' & c & Heq & Hvalid & _).
    unfold to_file in Hfile. rewrite Heq in Hfile.
    destruct r' as [view|e]; [|by injection Hfile as _ <- _].
    destruct (write_logs _ _ _) as [[?|?] ?]; by injection Hfile as _ <- _.
Qed.

(** C5: in every state a fetcher can reach, with the list store as with the
    dictionary of sets, the view [logs] returns holds pairs of the store,
    each with its time formatted, in ascending order of the raw times: it is
    the formatted front of the stored pairs put in that order, and all of
    them unless some time of the store cannot be formatted (a read that
    failed on such a time has left the front in the cache).  When every
    time of the store can be formatted, [logs] returns, and its view holds
    all the pairs of the store. *)
Theorem logs_sorted_by_time self :
  reachable self ->
  (forall view self',
     logs self = (Ret view, self') ->
     exists raw rest,
       format_all (date_format self) raw = Ret view
       /\ StronglySorted (key_le fst) raw
       /\ StronglySorted (key_le fst) (raw ++ rest)
       /\ raw ++ rest ≡ₚ stored (_logs self)
       /\ (rest = []
           \/ exists t, t ∈ times (_logs self) /\ ~ formats self t))
  /\ (Forall (formats self) (times (_logs self)) ->
      exists raw view self',
        logs self = (Ret view, self')
        /\ format_all (date_format self) raw = Ret view
        /\ StronglySorted (key_le fst) raw
        /\ raw ≡ₚ stored (_logs self)).
Proof.
  intros Hreach. apply reachable_cache_valid in Hreach.
  destruct (logs_spec self Hreach) as (r & c & Hrun & _ & Hr).
  pose proof (raw_logs_sorted self) as Hsorted.
  pose proof (raw_logs_Permutation self) as Hperm.
  split.
  - intros view self'. rewrite Hrun. intros [= -> <-].
    destruct Hr as (_ & raw & rest & Hraw & Hview & Hrest).
    rewrite Hraw in Hsorted, Hperm. exists raw, rest.
    repeat split; try done.
    { by apply StronglySorted_app_1_l in Hsorted. }
    destruct Hrest as [->|(t & e & Ht & Hbad)]; [by left|right].
    exists t. split; [done|]. intros [text Htext]. congruence.
  - intros Hall. rewrite Forall_forall in Hall.
    destruct r as [view|e].
    + destruct Hr as (_ & raw & rest & Hraw & Hview & Hrest).
      destruct Hrest as [->|(t & e & Ht & Hbad)].
      * rewrite app_nil_r in Hraw. rewrite Hraw in Hsorted, Hperm.
        by exists raw, view, (set_result c self).
      * destruct (Hall t Ht) as [text Htext]. congruence.
    + destruct Hr as (t & Ht & Hbad).
      destruct (Hall t Ht) as [text Htext]. congruence.
Qed.

(** *** Duplicates *)






(** *** The sink *)

Lemma length_padded f :
  length (BytesIO.padded f) = (length (BytesIO.buf f) `max` BytesIO.pos f)%nat.
Proof. unfold BytesIO.padded. rewrite length_app, length_replicate. lia. Qed.

Lemma padded_inside f :
  (BytesIO.pos f <= length (BytesIO.buf f))%nat ->
  BytesIO.padded f = BytesIO.buf f.
Proof.
  intros Hle. unfold BytesIO.padded.
  replace (_ - _)%nat with 0%nat by lia. apply app_nil_r.
Qed.

Lemma write_nonempty b f :
  b <> [] ->
  BytesIO.write b f =
    {| BytesIO.buf := take (BytesIO.pos f) (BytesIO.padded f) ++ b
                      ++ drop (BytesIO.pos f + length b)%nat (BytesIO.padded f);
       BytesIO.pos := (BytesIO.pos f + length b)%nat |}.
Proof. by destruct b. Qed.

(** Two writes in a row are the write of the two pieces joined. *)
Lemma write_app b1 b2 f :
  BytesIO.write b2 (BytesIO.write b1 f) = BytesIO.write (b1 ++ b2) f.
Proof.
  destruct (decide (b1 = [])) as [->|Hb1]; [done|].
  destruct (decide (b2 = [])) as [->|Hb2]; [by rewrite app_nil_r|].
  rewrite (write_nonempty b1 f Hb1), (write_nonempty (b1 ++ b2) f)
    by (by destruct b1).
  rewrite write_nonempty by done. simpl.
  pose proof (length_padded f) as Hlen.
  set (P := BytesIO.padded f) in *. set (p := BytesIO.pos f) in *.
  assert (Htake : length (take p P) = p) by (rewrite length_take; lia).
  rewrite padded_inside
    by (simpl; rewrite !length_app, length_drop, Htake; lia).
  simpl. rewrite length_app. f_equal; [|lia].
  rewrite (assoc_L (++) (take p P) b1).
  rewrite take_app_length' by (rewrite length_app; lia).
  replace (p + length b1 + length b2)%nat
    with (length (take p P ++ b1) + length b2)%nat
    by (rewrite length_app; lia).
  rewrite drop_app_add, drop_drop, <- !(assoc_L (++)).
  by rewrite Nat.add_assoc.
Qed.



(** *** Errors *)

Lemma fetch_logs_failing_page fuel query start fetch_all d s e :
  reply_error (backend (sent s) (request_of (self_ s) query start d)) = Some e ->
  fetch_logs (S fuel) query start fetch_all d s =
    (Raise e,
     {| self_ := with_entries
                   (reply_entries
                      (backend (sent s) (request_of (self_ s) query start d)))
                   (self_ s);
        sent := sent s ++ [request_of (self_ s) query start d] |}).
Proof.
  rewrite fetch_logs_step. cbn zeta.
  destruct (backend _ _) as [e'|status [body|e']]; simpl; by intros [= ->].
Qed.

(** C7: when the page asked for after [k] full pages fails (the request is
    refused, the body is not JSON, or the document is malformed) the
    exception comes out of the outermost [fetch_logs] as it is, the failing
    request is the last one sent (nothing is tried again), and the store
    still holds what the [k] pages brought: it is only extended, and it is
    the very same store when the request or the decoding failed.  The
    status of a reply plays no part: when the service has replied with a
    document, the failure is the document's. *)
Theorem fetch_logs_error_propagates
    query k s start d es s' start' d' fuel fetch_all e :
  paged query k s start d es s' start' d' ->
  fetch_all = true \/ k = 0%nat ->
  (k < fuel)%nat ->
  reply_error (backend (sent s') (request_of (self_ s') query start' d')) = Some e ->
  fetch_logs fuel query start fetch_all d s =
    (Raise e,
     {| self_ := with_entries
                   (reply_entries
                      (backend (sent s') (request_of (self_ s') query start' d')))
                   (self_ s');
        sent := sent s' ++ [request_of (self_ s') query start' d'] |})
  /\ _logs (self_ s') = add_logs es (_logs (self_ s))
  /\ length (sent s') = (length (sent s) + k)%nat
  /\ kept_in (_logs (self_ s'))
       (add_logs
          (reply_entries
             (backend (sent s') (request_of (self_ s') query start' d')))
          (_logs (self_ s')))
  /\ ((forall status body,
         backend (sent s') (request_of (self_ s') query start' d')
           <> Replied status (Ret body)) ->
      reply_entries (backend (sent s') (request_of (self_ s') query start' d'))
        = [])
  /\ (forall status body,
        backend (sent s') (request_of (self_ s') query start' d')
          = Replied status (Ret body) ->
        page_error body = Some e).
Proof.
  intros Hpaged Hall Hfuel Hfail.
  destruct (paged_session _ _ _ _ _ _ _ _ _ Hpaged) as (Hlogs & Hsent & _ & _).
  split; [|split; [done|split; [done|split; [|split]]]].
  - replace fuel with (k + S (fuel - S k))%nat by lia.
    destruct Hall as [->| ->].
    + rewrite (fetch_logs_paged _ _ _ _ _ _ _ _ _ _ Hpaged).
      by apply fetch_logs_failing_page.
    + inversion Hpaged; subst. by apply fetch_logs_failing_page.
  - apply kept_in_add_logs.
  - intros Hnot. destruct (backend _ _) as [e'|status [body|e']]; try done.
    by destruct (Hnot status body).
  - intros status body Hreply. by rewrite Hreply in Hfail.
Qed.

(** C9: a page with more entries than [query_limit] is the last one asked
    for, whatever [fetch_all] says: the call sends its one request and ends;
    when the document is well formed it returns, and all the entries of the
    page are in the store. *)
Theorem over_full_page_stops fuel query start fetch_all d s body status :
  backend (sent s) (request_of (self_ s) query start d)
    = Replied status (Ret body) ->
  page_error body = None ->
  query_limit (self_ s) < Z.of_nat (values_count body) ->
  fetch_logs (S fuel) query start fetch_all d s =
    (Ret tt,
     {| self_ := with_entries (page_entries body) (self_ s);
        sent := sent s ++ [request_of (self_ s) query start d] |})
  /\ length (page_entries body) = values_count body.
Proof.
  intros Hreply Hok Hmore.
  pose proof (page_entries_count body Hok) as Hcount.
  split; [|done].
  rewrite fetch_logs_step. cbn zeta. rewrite Hreply, Hok.
  replace (_ =? _) with false by (symmetry; apply Z.eqb_neq; lia).
  by rewrite andb_false_r.
Qed.

(** A page that does not fill the limit, or any page when [fetch_all] is
    off, is the last one. *)
Lemma fetch_logs_last_page fuel query start fetch_all d s body status :
  backend (sent s) (request_of (self_ s) query start d)
    = Replied status (Ret body) ->
  page_error body = None ->
  fetch_all = false \/ Z.of_nat (values_count body) < query_limit (self_ s) ->
  fetch_logs (S fuel) query start fetch_all d s =
    (Ret tt,
     {| self_ := with_entries (page_entries body) (self_ s);
        sent := sent s ++ [request_of (self_ s) query start d] |}).
Proof.
  intros Hreply Hok Hlast.
  rewrite fetch_logs_step. cbn zeta. rewrite Hreply, Hok.
  rewrite (page_entries_count body Hok).
  destruct Hlast as [->|Hless]; [done|].
  replace (_ =? _) with false by (symmetry; apply Z.eqb_neq; lia).
  by rewrite andb_false_r.
Qed.

(** *** Further properties of the fetcher *)

Lemma compute_logs_again self view self' :
  compute_logs self = (Ret view, self') ->
  compute_logs self' = (Ret view, self').
Proof.
  destruct (compute_logs_spec self) as (r & c & -> & Hspec).
  intros [= -> <-]. destruct Hspec as (-> & Hview & Hall).
  destruct (compute_logs_spec (set_result (Some view) self))
    as (r & c & Hrun & Hspec).
  rewrite Hrun. destruct r as [view'|e].
  - destruct Hspec as (-> & Hview' & _).
    change (format_all (date_format self) (raw_logs self) = Ret view')
      in Hview'.
    rewrite Hview in Hview'. by injection Hview' as <-.
  - destruct Hspec as ((t & Ht & Hbad) & _).
    change (t ∈ times (_logs self)) in Ht.
    rewrite Forall_forall in Hall. destruct (Hall t Ht) as [text Htext].
    change (format_time (date_format self) t = Raise e) in Hbad. congruence.
Qed.

(** X1: when [logs] has returned a view, asking for it a second time, with
    no fetch in between, returns the same view and leaves the fetcher as
    the first call left it (also when the view is empty, and so computed
    again). *)
Theorem logs_again self view self' :
  logs self = (Ret view, self') -> logs self' = (Ret view, self').
Proof.
  assert (Hcompute : compute_logs self = (Ret view, self') ->
                     logs self' = (Ret view, self')).
  { intros Hrun. pose proof (compute_logs_again _ _ _ Hrun) as Hagain.
    destruct (compute_logs_spec self) as (r & c & Hrun' & Hspec).
    rewrite Hrun' in Hrun. injection Hrun as -> <-.
    destruct Hspec as (-> & _). unfold logs, mbind, M_bind, get. simpl.
    by destruct view. }
  unfold logs at 1. unfold mbind, M_bind, get.
  destruct (_result self) as [[|x r]|] eqn:Hcache; try done.
  intros [= <- <-]. unfold logs, mbind, M_bind, get. by rewrite Hcache.
Qed.

(** X16: with the dictionary of sets, a read of [logs] that fails on a time
    leaves the groups in front of that time in the cache; when they hold a
    pair, the next read returns them and raises nothing. *)
Theorem failed_read_leaves_the_front self d e self' :
  _logs self = LogsDict d ->
  _result self = None \/ _result self = Some [] ->
  logs self = (Raise e, self') ->
  exists ready t v todo view,
    sorted fst (map_to_list d) = ready ++ (t, v) :: todo
    /\ format_time (date_format self) t = Raise e
    /\ format_all (date_format self) (groups ready) = Ret view
    /\ self' = set_result (Some view) self
    /\ (view <> [] -> logs self' = (Ret view, self')).
Proof.
  intros Hdict Hcache.
  assert (Hlogs : logs self = compute_logs self).
  { unfold logs, mbind, M_bind, get. by destruct Hcache as [-> | ->]. }
  rewrite Hlogs. unfold compute_logs, mbind, M_bind, get, modify.
  rewrite Hdict, (append_groups_spec (date_format self) _ [] self).
  destruct (run_groups_spec (date_format self)
              (sorted fst (map_to_list d)) [])
    as (ready & todo & view & Hitems & Hview & Hfinal & Hres).
  intros [= Hr <-]. rewrite Hr in Hres.
  destruct Hres as (t & v & todo' & -> & Hbad).
  exists ready, t, v, todo', view. rewrite Hfinal. simpl.
  repeat split; try done.
  intros Hne. unfold logs, mbind, M_bind, get. simpl. by destruct view.
Qed.

(** X2: with the list store, pairs that carry the same time come out of
    [logs] in the order in which they were stored: the view computed from
    the store is the formatted [raw_logs] (and it is computed when every
    time of the store can be formatted), in which the pairs of one time
    stand as they stand in the store. *)
Theorem list_store_ties_keep_order self l :
  _logs self = LogsList l ->
  (forall view f,
     compute_logs self = (Ret view, f) ->
     format_all (date_format self) (raw_logs self) = Ret view)
  /\ (Forall (formats self) (times (_logs self)) ->
      exists view f, compute_logs self = (Ret view, f))
  /\ forall t,
       filter (fun e : Z * string => e.1 = t) (raw_logs self)
       = filter (fun e : Z * string => e.1 = t) l.
Proof.
  intros Hlist.
  split; [apply compute_logs_view|]. split; [apply compute_logs_view|].
  intros t. unfold raw_logs. rewrite Hlist. apply (sorted_stable fst).
Qed.

Lemma foldl_max_bounds (es : list (Z * string)) p0 :
  p0 <= foldl (fun p e => Z.max p e.1) p0 es
  /\ Forall (fun e => e.1 <= foldl (fun p e => Z.max p e.1) p0 es) es
  /\ (foldl (fun p e => Z.max p e.1) p0 es = p0
      \/ exists m, (foldl (fun p e => Z.max p e.1) p0 es, m) ∈ es).
Proof.
  revert p0. induction es as [|[t m] es IH]; intros p0; simpl.
  { split; [lia|]. split; [constructor|by left]. }
  destruct (IH (Z.max p0 t)) as (Hle & Hall & Hmax). split; [lia|]. split.
  - constructor; [simpl; lia|done].
  - destruct Hmax as [Heq|[m' Hin]].
    + rewrite Heq. destruct (Z.max_spec p0 t) as [[_ ->]|[_ ->]].
      * right. exists m. apply list_elem_of_here.
      * by left.
    + right. exists m'. by apply list_elem_of_further.
Qed.

(** X3: the peak [_unpack_response] returns is never negative, no time of
    the page lies above it, and it is 0 or a time of the page: it is the
    largest time of the page, or 0 when that is larger. *)
Theorem peak_bounds_page body self n peak self' :
  _unpack_response body self = (Ret (n, peak), self') ->
  0 <= peak
  /\ Forall (fun e => e.1 <= peak) (page_entries body)
  /\ (peak = 0 \/ exists m, (peak, m) ∈ page_entries body).
Proof.
  rewrite _unpack_response_spec.
  destruct (page_error body); [done|]. intros [= _ <- _].
  apply foldl_max_bounds.
Qed.

(** X4: a whole session.  When [k] full pages are followed by a
    well-formed page that does not hold exactly [query_limit] entries, the
    fetch returns after [k + 1] requests and the store holds the pairs of
    all the pages, put in in the order in which they came. *)
Theorem fetch_logs_session query k s start d es s' start' d' fuel body status :
  paged query k s start d es s' start' d' ->
  (k < fuel)%nat ->
  backend (sent s') (request_of (self_ s') query start' d')
    = Replied status (Ret body) ->
  page_error body = None ->
  Z.of_nat (length (page_entries body)) <> query_limit (self_ s') ->
  fetch_logs fuel query start true d s =
    (Ret tt,
     {| self_ := with_entries (page_entries body) (self_ s');
        sent := sent s' ++ [request_of (self_ s') query start' d'] |})
  /\ _logs (with_entries (page_entries body) (self_ s'))
     = add_logs (es ++ page_entries body) (_logs (self_ s))
  /\ length (sent s' ++ [request_of (self_ s') query start' d'])
     = (length (sent s) + k + 1)%nat.
Proof.
  intros Hpaged Hfuel Hreply Hok Hshort.
  destruct (paged_session _ _ _ _ _ _ _ _ _ Hpaged) as (Hlogs & Hsent & _ & _).
  split; [|split].
  - replace fuel with (k + S (fuel - S k))%nat by lia.
    rewrite (fetch_logs_paged _ _ _ _ _ _ _ _ _ _ Hpaged).
    rewrite fetch_logs_step. cbn zeta. rewrite Hreply, Hok.
    by rewrite (proj2 (Z.eqb_neq _ _) Hshort).
  - by rewrite with_entries_logs, Hlogs, add_logs_app.
  - rewrite length_app, Hsent. simpl. lia.
Qed.

(** X5: a service that fills every page is asked again and again: the
    fetch goes as deep as the interpreter lets it, one request per level,
    and ends in [RecursionError].  With [query_limit] 0 an empty page is
    such a page. *)
Theorem full_pages_use_up_the_depth fuel query start d s :
  (forall received req,
     exists status body,
       backend received req = Replied status (Ret body)
       /\ page_error body = None
       /\ Z.of_nat (length (page_entries body)) = query_limit (self_ s)) ->
  exists s',
    fetch_logs fuel query start true d s = (Raise RecursionError, s')
    /\ length (sent s') = (length (sent s) + fuel)%nat.
Proof.
  intros Hfull. revert start d s Hfull.
  induction fuel as [|fuel IH]; intros start d s Hfull.
  { exists s. split; [done|lia]. }
  destruct (Hfull (sent s) (request_of (self_ s) query start d))
    as (status & body & Hreply & Hok & Hlen).
  rewrite (fetch_logs_follow_up _ _ _ _ _ body status Hreply Hok Hlen).
  destruct (IH (time_peak (page_entries body) + next_chunk_step_ns (self_ s))
              forward
              {| self_ := with_entries (page_entries body) (self_ s);
                 sent := sent s ++ [request_of (self_ s) query start d] |}
              Hfull) as (s' & Hrun & Hsent).
  exists s'. split; [done|]. rewrite Hsent. simpl. rewrite length_app. simpl. lia.
Qed.

Lemma fetch_logs_frame fuel query start fetch_all d s :
  kept_in (_logs (self_ s))
    (_logs (self_ (fetch_logs fuel query start fetch_all d s).2))
  /\ url (self_ (fetch_logs fuel query start fetch_all d s).2) = url (self_ s)
  /\ date_format (self_ (fetch_logs fuel query start fetch_all d s).2)
     = date_format (self_ s)
  /\ query_limit (self_ (fetch_logs fuel query start fetch_all d s).2)
     = query_limit (self_ s)
  /\ next_chunk_step_ns (self_ (fetch_logs fuel query start fetch_all d s).2)
     = next_chunk_step_ns (self_ s)
  /\ data_parse_structure (self_ (fetch_logs fuel query start fetch_all d s).2)
     = data_parse_structure (self_ s).
Proof.
  revert query start fetch_all d s.
  induction fuel as [|fuel IH]; intros query start fetch_all d s.
  { simpl. split; [apply kept_in_refl|done]. }
  rewrite fetch_logs_step. cbn zeta.
  assert (Hone : forall es,
    kept_in (_logs (self_ s)) (_logs (with_entries es (self_ s))))
    by (intros es; apply kept_in_add_logs).
  destruct (backend _ _) as [e|status [body|e]]; try (split; [apply Hone|done]).
  destruct (page_error body) as [e|]; [split; [apply Hone|done]|].
  destruct (fetch_all && _); [|split; [apply Hone|done]].
  destruct (IH query
              (time_peak (page_entries body) + next_chunk_step_ns (self_ s))
              true forward
              {| self_ := with_entries (page_entries body) (self_ s);
                 sent := sent s ++ [request_of (self_ s) query start d] |})
    as (Hkept & Hrest).
  split; [|exact Hrest].
  eapply kept_in_trans; [|exact Hkept]. simpl. apply kept_in_add_logs.
Qed.

(** X6: whatever a fetch meets (pages, failures, the end of the depth), it
    only adds to the store: a list store keeps what it held as a prefix, a
    dictionary keeps every message under its time; and it leaves the URL,
    the date format, the limit, the step and the kind of store alone. *)
Theorem fetch_logs_only_adds fuel query start fetch_all d s :
  kept_in (_logs (self_ s))
    (_logs (self_ (fetch_logs fuel query start fetch_all d s).2))
  /\ url (self_ (fetch_logs fuel query start fetch_all d s).2) = url (self_ s)
  /\ date_format (self_ (fetch_logs fuel query start fetch_all d s).2)
     = date_format (self_ s)
  /\ query_limit (self_ (fetch_logs fuel query start fetch_all d s).2)
     = query_limit (self_ s)
  /\ next_chunk_step_ns (self_ (fetch_logs fuel query start fetch_all d s).2)
     = next_chunk_step_ns (self_ s)
  /\ data_parse_structure (self_ (fetch_logs fuel query start fetch_all d s).2)
     = data_parse_structure (self_ s).
Proof. apply fetch_logs_frame. Qed.

Lemma logs_only_caches self : exists c, (logs self).2 = set_result c self.
Proof.
  assert (Hcompute : exists c, (compute_logs self).2 = set_result c self).
  { destruct (compute_logs_spec self) as (r & c & -> & _). by exists c. }
  unfold logs, mbind, M_bind, get.
  destruct (_result self) as [[|x r]|] eqn:Hcache; simpl; try done.
  exists (Some (x :: r)). by rewrite <- Hcache, set_result_same.
Qed.

(** X7: in every state a fetcher can reach, [data_parse_structure] is one
    of the two supported types and the store is of that type: a list for
    [list], a dictionary for [dict]. *)
Theorem store_matches_its_type self :
  reachable self ->
  data_parse_structure self ∈ available_data_structures
  /\ match _logs self with
     | LogsList _ => data_parse_structure self = py_list
     | LogsDict _ => data_parse_structure self = py_dict
     end.
Proof.
  induction 1 as
    [given df ql step ds self Hinit
    |self fuel query start fetch_all d received r s' _ IH Hrun
    |self r self' _ IH Hlogs
    |self file enc do_seek r self' file' _ IH Hfile].
  - unfold __init__, mbind, res_bind in Hinit.
    destruct (bool_decide _) eqn:Hds; [|done].
    apply bool_decide_eq_true_1 in Hds.
    destruct (if falsy given then _ else _); [|done].
    injection Hinit as <-. simpl. split; [done|].
    unfold available_data_structures in Hds.
    apply elem_of_cons in Hds as [->|Hds]; [done|].
    apply elem_of_cons in Hds as [->|Hds]; [done|].
    by apply elem_of_nil in Hds.
  - destruct (fetch_logs_frame fuel query start fetch_all d
                {| self_ := self; sent := received |})
      as (Hkept & _ & _ & _ & _ & Hds).
    rewrite Hrun in Hkept, Hds. simpl in Hkept, Hds. rewrite Hds.
    split; [apply IH|]. destruct IH as [_ IH].
    by destruct (_logs self), (_logs (self_ s')).
  - destruct (logs_only_caches self) as [c Hc].
    rewrite Hlogs in Hc. simpl in Hc. by subst self'.
  - destruct (logs_only_caches self) as [c Hc].
    unfold to_file in Hfile. destruct (logs self) as [[view|e] self''].
    + destruct (write_logs _ _ _) as [[?|?] ?];
        injection Hfile as _ <- _; simpl in Hc; by subst self''.
    + injection Hfile as _ <- _. simpl in Hc. by subst self''.
Qed.



Lemma write_logs_failure enc pre log post encoded e file :
  Forall2 (fun log bytes => str_encode enc (line log) = Ret bytes) pre encoded ->
  str_encode enc (line log) = Raise e ->
  write_logs enc (pre ++ log :: post) file
  = (Raise e, BytesIO.write (concat encoded) file).
Proof.
  intros Hpre Hbad. revert file.
  induction Hpre as [|log' bytes pre encoded Hline _ IH]; intros file; simpl.
  - unfold mbind, M_bind, lift. by rewrite Hbad.
  - unfold mbind, M_bind, lift, modify. rewrite Hline, IH.
    by rewrite write_app.
Qed.

(** X9: when a line of the view cannot be encoded, [to_file] raises what
    the encoding raises; the sink then holds the lines in front of that
    one and its cursor stands behind them, whatever [do_seek] says. *)
Theorem to_file_stops_at_bad_line self file enc do_seek pre log post encoded e :
  (logs self).1 = Ret (pre ++ log :: post) ->
  Forall2 (fun log bytes => str_encode enc (line log) = Ret bytes) pre encoded ->
  str_encode enc (line log) = Raise e ->
  to_file file enc do_seek self
  = (Raise e,
     ((logs self).2,
      BytesIO.write (concat encoded) (default BytesIO.new file))).
Proof.
  intros Hview Hpre Hbad. unfold to_file.
  destruct (logs self) as [r self']. simpl in Hview. subst r.
  by rewrite (write_logs_failure _ _ _ _ _ _ _ Hpre Hbad).
Qed.

(** X10: [from_project] never returns a fetcher when it is given an
    [api_path] keyword: [make_url] takes the keyword, but [__init__] has no
    such parameter, so once the URL is made the call ends in [TypeError]. *)
Theorem from_project_rejects_api_path project kw path :
  kw_api_path kw = Some path ->
  (exists e, from_project project kw = Raise e)
  /\ (forall secrets loki_host,
        get_all_secrets (Some project) = Ret secrets ->
        secrets !! "loki_host" = Some loki_host ->
        "project_or_id" ∉ kw_other kw ->
        from_project project kw = Raise TypeError).
Proof.
  intros Hpath. unfold from_project, make_url_kw, cls_kw, mbind, res_bind.
  change (kw_other (pop_url kw)) with (kw_other kw).
  change (kw_api_path (pop_url kw)) with (kw_api_path kw).
  change (kw_url (pop_url kw)) with (@None string).
  rewrite Hpath, make_url_spec. split.
  - destruct (bool_decide _); [by eexists|].
    destruct (get_all_secrets (Some project)) as [secrets|e]; [|by eexists].
    destruct (secrets !! "loki_host"); by eexists.
  - intros secrets loki_host Hsecrets Hhost Hother.
    by rewrite (bool_decide_eq_false_2 _ Hother), Hsecrets, Hhost.
Qed.

(** *** The dictionary of sets and the order of arrival *)

Lemma dom_add_logs es d :
  exists d', add_logs es (LogsDict d) = LogsDict d'
             /\ dom d' = dom d ∪ list_to_set es.*1.
Proof.
  revert d. induction es as [|[t m] es IH]; intros d.
  - exists d. split; [done|]. set_solver.
  - rewrite add_logs_cons. simpl add_log.
    destruct (IH (<[t:=default ∅ (d !! t) ∪ {[m]}]> d)) as (d' & -> & Hdom).
    exists d'. split; [done|]. rewrite Hdom, dom_insert_L. set_solver.
Qed.

Lemma dict_store_eq d1 d2 :
  dom d1 = dom d2 -> pairs (LogsDict d1) = pairs (LogsDict d2) -> d1 = d2.
Proof.
  intros Hdom Hpairs. apply map_eq. intros t.
  assert (Hmem : forall m v1 v2,
            d1 !! t = Some v1 -> d2 !! t = Some v2 -> m ∈ v1 <-> m ∈ v2).
  { intros m v1 v2 H1 H2.
    assert (Hin : (t, m) ∈ pairs (LogsDict d1) <-> (t, m) ∈ pairs (LogsDict d2))
      by (by rewrite Hpairs).
    unfold pairs in Hin.
    rewrite !elem_of_list_to_set, !elem_of_stored_dict in Hin.
    split; intros Hm.
    - destruct (proj1 Hin) as (v & Hv & Hmv); [by exists v1|]. congruence.
    - destruct (proj2 Hin) as (v & Hv & Hmv); [by exists v2|]. congruence. }
  destruct (d1 !! t) as [v1|] eqn:H1, (d2 !! t) as [v2|] eqn:H2.
  - f_equal. apply set_eq. intros m. by apply Hmem.
  - assert (t ∈ dom d2) as Hin by (rewrite <- Hdom; by apply elem_of_dom).
    apply elem_of_dom in Hin as [v Hv]. congruence.
  - assert (t ∈ dom d1) as Hin by (rewrite Hdom; by apply elem_of_dom).
    apply elem_of_dom in Hin as [v Hv]. congruence.
  - done.
Qed.

Lemma add_logs_same_pairs es es' d :
  (forall e, e ∈ es <-> e ∈ es') ->
  add_logs es (LogsDict d) = add_logs es' (LogsDict d).
Proof.
  intros Hsame.
  destruct (dom_add_logs es d) as (d1 & H1 & Hdom1).
  destruct (dom_add_logs es' d) as (d2 & H2 & Hdom2).
  pose proof (pairs_add_logs es d) as Hp1.
  pose proof (pairs_add_logs es' d) as Hp2.
  rewrite H1 in *. rewrite H2 in *. f_equal. apply dict_store_eq.
  - rewrite Hdom1, Hdom2. f_equal. apply set_eq. intros t.
    rewrite !elem_of_list_to_set, !list_elem_of_fmap.
    split; intros (e & -> & He); exists e; split; try done; by apply Hsame.
  - rewrite Hp1, Hp2. f_equal. apply set_eq. intros e.
    by rewrite !elem_of_list_to_set.
Qed.

(** X11: with the dictionary of sets the store does not depend on how the
    pages arrive: two pages unpacked in either order leave the same store,
    and a page unpacked a second time changes nothing. *)
Theorem set_store_ignores_arrival self d b1 b2 :
  _logs self = LogsDict d ->
  _logs (_unpack_response b2 (_unpack_response b1 self).2).2
    = _logs (_unpack_response b1 (_unpack_response b2 self).2).2
  /\ _logs (_unpack_response b1 (_unpack_response b1 self).2).2
     = _logs (_unpack_response b1 self).2.
Proof.
  intros Hdict. rewrite !_unpack_response_spec. simpl. rewrite Hdict.
  rewrite <- !add_logs_app. split.
  - apply add_logs_same_pairs. intros e. rewrite !elem_of_app. tauto.
  - apply add_logs_same_pairs. intros e. rewrite !elem_of_app. tauto.
Qed.

End Fetcher.

(** ** The fetcher at work *)

(** C3: with [query_limit] 2 and a service that hands out two full pages of
    two entries and then a page of one, a fetch with [fetch_all] on returns
    after exactly three requests, the third of which starts at the largest
    time of the second page plus [next_chunk_step_ns] (times being counted
    from the epoch, that largest time is not negative), with all five pairs
    in the store; and a call ends at a page with fewer entries than
    [query_limit], and at any page when [fetch_all] is off. *)
Theorem three_requests self query start d b1 b2 b3 e1 e2 t3 m3 t4 m4 e5 fuel
    c1 c2 c3 :
  query_limit self = 2 ->
  page_error b1 = None -> page_entries b1 = [e1; e2] ->
  page_error b2 = None -> page_entries b2 = [(t3, m3); (t4, m4)] ->
  page_error b3 = None -> page_entries b3 = [e5] ->
  0 <= Z.max t3 t4 ->
  (3 <= fuel)%nat ->
  (exists r1 r2 r3 self',
     fetch_logs
       (serve [Replied c1 (Ret b1); Replied c2 (Ret b2); Replied c3 (Ret b3)])
       fuel query start true d {| self_ := self; sent := [] |}
       = (Ret tt, {| self_ := self'; sent := [r1; r2; r3] |})
     /\ LokiLogFetcher.start (req_params r3)
        = Z.max t3 t4 + next_chunk_step_ns self
     /\ _logs self'
        = add_logs [e1; e2; (t3, m3); (t4, m4); e5] (_logs self))
  /\ (forall backend fuel' query' start' fetch_all d' s status body,
        backend (sent s) (request_of (self_ s) query' start' d')
          = Replied status (Ret body) ->
        page_error body = None ->
        fetch_all = false
        \/ Z.of_nat (values_count body) < query_limit (self_ s) ->
        fetch_logs backend (S fuel') query' start' fetch_all d' s =
          (Ret tt,
           {| self_ := with_entries (page_entries body) (self_ s);
              sent := sent s ++ [request_of (self_ s) query' start' d'] |})).
Proof.
  intros Hlimit Hok1 Hes1 Hok2 Hes2 Hok3 Hes3 Hpos Hfuel.
  split; [|intros; by eapply fetch_logs_last_page].
  destruct fuel as [|[|[|fuel]]]; try lia.
  do 3 eexists. eexists.
  rewrite fetch_logs_step. cbn zeta. unfold serve at 1. cbn -[fetch_logs].
  rewrite Hok1, Hes1, Hlimit. cbn -[fetch_logs].
  rewrite fetch_logs_step. cbn zeta. unfold serve at 1. cbn -[fetch_logs].
  rewrite Hok2, Hes2, Hlimit. cbn -[fetch_logs].
  rewrite fetch_logs_step. cbn zeta. unfold serve at 1. cbn -[fetch_logs].
  rewrite Hok3, Hes3, Hlimit. cbn -[fetch_logs].
  split; [reflexivity|]. split.
  - simpl. unfold time_peak. simpl. f_equal. lia.
  - simpl. by destruct self.
Qed.

(** C1 (what the code does on a backward fetch): with [query_limit] 1 and a
    first page of one entry, a fetch asked to go [backward] sends its
    follow-up request with the same query and with [start] at the largest
    time plus the step, but with direction [forward]; the pair of the first
    page stays in the store. *)
Theorem follow_up_goes_forward :
  fetch_logs (serve [page [("5", "a")]; page []]) 2 "app" 0 true backward
    (fresh (sample 1 py_list))
  = (Ret tt,
     {| self_ := with_entries [(5, "a")] (sample 1 py_list);
        sent := [ request_of (sample 1 py_list) "app" 0 backward;
                  request_of (sample 1 py_list) "app" 6 forward ] |}).
Proof. vm_compute. reflexivity. Qed.

(** C2, counterexample: the URL made from [loki_host = http://loki:3100] is
    not that host followed at once by [/api/v1/query_range]. *)
Lemma made_url_is_not_host_then_path :
  __init__ vault None default_date_format default_query_limit
    default_next_chunk_step_ns py_list
    = Ret (sample default_query_limit py_list)
  /\ vault None = Ret {[ "loki_host" := "http://loki:3100" ]}
  /\ url (sample default_query_limit py_list)
     <> "http://loki:3100" +:+ "/api/v1/query_range".
Proof. split; [by vm_compute|]. split; [done|]. by vm_compute. Qed.

(** [init_derives_url] with the vault above. *)
Lemma init_derives_url_witness :
  exists self,
    __init__ vault None default_date_format default_query_limit
      default_next_chunk_step_ns py_list = Ret self
    /\ url self = "http://loki:3100" +:+ "/loki" +:+ "/api/v1/query_range"
    /\ forall fuel query start fetch_all d received r s',
         fetch_logs (serve []) fuel query start fetch_all d
           {| self_ := self; sent := received |} = (r, s') ->
         exists new,
           sent s' = received ++ new
           /\ Forall (fun q => req_url q
                = "http://loki:3100" +:+ "/loki" +:+ "/api/v1/query_range") new.
Proof.
  exact (init_derives_url vault (serve []) None default_date_format
           default_query_limit default_next_chunk_step_ns py_list
           eq_refl (list_elem_of_here _ _)).
Defined.

(** [three_requests] on the pages of [three_pages], with the dictionary of
    sets. *)
Lemma three_requests_witness :
  exists r1 r2 r3 self',
    fetch_logs (serve three_pages) 3 "app" 0 true forward
      (fresh (sample 2 py_dict))
      = (Ret tt, {| self_ := self'; sent := [r1; r2; r3] |})
    /\ LokiLogFetcher.start (req_params r3) = Z.max 40 30 + 1
    /\ _logs self'
       = add_logs [(10, "a"); (20, "b"); (40, "c"); (30, "d"); (50, "e")]
           (LogsDict ∅).
Proof.
  refine (proj1 (three_requests (sample 2 py_dict) "app" 0 forward
            (document [("10", "a"); ("20", "b")])
            (document [("40", "c"); ("30", "d")])
            (document [("50", "e")])
            (10, "a") (20, "b") 40 "c" 30 "d" (50, "e") 3 200 200 200
            eq_refl eq_refl eq_refl eq_refl eq_refl eq_refl eq_refl _ _));
    [by vm_compute | lia].
Defined.

(** [from_project] with a [url] keyword: the keyword leaves no trace. *)
Example from_project_drops_the_keyword :
  from_project vault 7%nat (only_url "http://elsewhere")
  = Ret (sample default_query_limit py_list).
Proof. by vm_compute. Qed.

(** C4, counterexample: with the dictionary of sets, a page that repeats a
    pair adds one pair, although its document has two [values] entries. *)
Lemma set_store_adds_fewer :
  (_unpack_response twice (sample 5000 py_dict)).1 = Ret (2, 7)
  /\ values_count twice = 2%nat
  /\ length (stored (_logs (_unpack_response twice (sample 5000 py_dict)).2))
     = (length (stored (_logs (sample 5000 py_dict))) + 1)%nat
  /\ length (stored (_logs (_unpack_response twice (sample 5000 py_dict)).2))
     <> (length (stored (_logs (sample 5000 py_dict))) + values_count twice)%nat.
Proof. by vm_compute. Qed.

(** [unpack_counts] on the same page. *)
Lemma unpack_counts_witness :
  2 = Z.of_nat (values_count twice)
  /\ pairs (_logs (_unpack_response twice (sample 5000 py_dict)).2)
       = pairs (LogsDict ∅) ∪ list_to_set (page_entries twice)
  /\ length (stored (_logs (_unpack_response twice (sample 5000 py_dict)).2))
       = (length (stored (LogsDict ∅))
          + size (list_to_set (page_entries twice) ∖ pairs (LogsDict ∅)))%nat
  /\ (length (stored (_logs (_unpack_response twice (sample 5000 py_dict)).2))
       <= length (stored (LogsDict ∅)) + values_count twice)%nat.
Proof.
  exact (unpack_counts twice (sample 5000 py_dict) 2 7
           (_unpack_response twice (sample 5000 py_dict)).2 eq_refl).
Defined.

(** [logs_sorted_by_time] with the dictionary of sets, after a page of two
    pairs whose second time lies beyond the calendar and a read of [logs]
    that failed on it. *)
Lemma logs_sorted_by_time_witness :
  let self :=
    (logs (H:=elements_order) calendar_format
       (self_ (fetch_logs
                 (serve [page [("5", "a"); ("253402300800000000000", "b")]])
                 1 "app" 0 true forward (fresh (sample 5000 py_dict))).2)).2 in
  (forall view self',
     logs (H:=elements_order) calendar_format self = (Ret view, self') ->
     exists raw rest,
       format_all calendar_format (date_format self) raw = Ret view
       /\ StronglySorted (key_le fst) raw
       /\ StronglySorted (key_le fst) (raw ++ rest)
       /\ raw ++ rest ≡ₚ stored (_logs self)
       /\ (rest = []
           \/ exists t, t ∈ times (_logs self)
                        /\ ~ formats calendar_format self t))
  /\ (Forall (formats calendar_format self) (times (_logs self)) ->
      exists raw view self',
        logs (H:=elements_order) calendar_format self = (Ret view, self')
        /\ format_all calendar_format (date_format self) raw = Ret view
        /\ StronglySorted (key_le fst) raw
        /\ raw ≡ₚ stored (_logs self)).
Proof.
  intros self.
  apply (logs_sorted_by_time vault calendar_format latin1 (H:=elements_order)
           (serve [page [("5", "a"); ("253402300800000000000", "b")]])).
  apply (reach_logs _ _ _ _
           (self_ (fetch_logs
                     (serve [page [("5", "a"); ("253402300800000000000", "b")]])
                     1 "app" 0 true forward (fresh (sample 5000 py_dict))).2)
           (Raise ValueError)); [|by vm_compute].
  apply (reach_fetch_logs _ _ _ _ (sample 5000 py_dict) 1 "app" 0 true
           forward []
           (fetch_logs
              (serve [page [("5", "a"); ("253402300800000000000", "b")]])
              1 "app" 0 true forward (fresh (sample 5000 py_dict))).1).
  - apply (reach_init _ _ _ _
             (Some "http://loki:3100/loki/api/v1/query_range")
             default_date_format 5000 default_next_chunk_step_ns py_dict).
    reflexivity.
  - reflexivity.
Defined.

(** The state of that witness, run: the read after the failed one returns
    the pair in front of the time that cannot be formatted. *)
Example read_after_failed_read :
  logs (H:=elements_order) calendar_format
    (self_ (fetch_logs
              (serve [page [("5", "a"); ("253402300800000000000", "b")]])
              1 "app" 0 true forward (fresh (sample 5000 py_dict))).2)
  = (Raise ValueError,
     set_result (Some [(default_date_format, "a")])
       (with_entries [(5, "a"); (253402300800000000000, "b")]
          (sample 5000 py_dict)))
  /\ (logs (H:=elements_order) calendar_format
        (set_result (Some [(default_date_format, "a")])
           (with_entries [(5, "a"); (253402300800000000000, "b")]
              (sample 5000 py_dict)))).1
     = Ret [(default_date_format, "a")].
Proof. split; by vm_compute. Qed.


(** The view of that store, run. *)
Example same_pair_twice_is_one_line :
  (compute_logs (H:=elements_order) literal_format
     (_unpack_response twice (sample 5000 py_dict)).2).1
  = Ret [(default_date_format, "a")].
Proof. by vm_compute. Qed.

(** The three cases of the dictionary of sets, and the list store, run. *)
Example same_pair_twice_is_one_entry :
  raw_logs (H:=elements_order)
    (_unpack_response (document [("7", "a"); ("7", "a")])
       (sample 5000 py_dict)).2
  = [(7, "a")].
Proof. by vm_compute. Qed.

Example two_messages_at_one_time_are_two_entries :
  raw_logs (H:=elements_order)
    (_unpack_response (document [("7", "a"); ("7", "b")])
       (sample 5000 py_dict)).2
  ≡ₚ [(7, "a"); (7, "b")].
Proof. vm_compute. reflexivity. Qed.

Example one_message_at_two_times_is_two_entries :
  raw_logs (H:=elements_order)
    (_unpack_response (document [("8", "a"); ("7", "a")])
       (sample 5000 py_dict)).2
  = [(7, "a"); (8, "a")].
Proof. by vm_compute. Qed.

Example list_store_keeps_the_pair_twice :
  raw_logs (H:=elements_order)
    (_unpack_response (document [("7", "a"); ("7", "a")])
       (sample 5000 py_list)).2
  = [(7, "a"); (7, "a")].
Proof. by vm_compute. Qed.

(** C7, counterexample: a reply with the status 500 whose body is a
    well-formed document is taken as a page: the fetch returns, nothing is
    raised, and the pair of the body is in the store. *)
Lemma error_status_is_taken_as_a_page :
  fetch_logs (serve [Replied 500 (Ret (document [("5", "a")]))]) 1 "app" 0
    true forward (fresh (sample 5000 py_list))
  = (Ret tt,
     {| self_ := with_entries [(5, "a")] (sample 5000 py_list);
        sent := [request_of (sample 5000 py_list) "app" 0 forward] |}).
Proof. vm_compute. reflexivity. Qed.

(** [fetch_logs_error_propagates] when the second body is not JSON: the
    fetch raises, the first page is still held, and two requests went out. *)
Lemma fetch_logs_error_propagates_witness :
  (fetch_logs (serve page_then_garbage) 5 "app" 0 true forward
     (fresh (sample 2 py_list))).1 = Raise JSONDecodeError
  /\ _logs (self_ (fetch_logs (serve page_then_garbage) 5 "app" 0 true forward
                     (fresh (sample 2 py_list))).2)
     = LogsList [(10, "a"); (20, "b")]
  /\ length (sent (fetch_logs (serve page_then_garbage) 5 "app" 0 true forward
                     (fresh (sample 2 py_list))).2) = 2%nat.
Proof.
  destruct (fetch_logs_error_propagates (serve page_then_garbage) "app" 1
              (fresh (sample 2 py_list)) 0 forward
              (page_entries (document [("10", "a"); ("20", "b")]) ++ [])
              {| self_ := with_entries [(10, "a"); (20, "b")] (sample 2 py_list);
                 sent := [request_of (sample 2 py_list) "app" 0 forward] |}
              21 forward 5 true JSONDecodeError
              (paged_S (serve page_then_garbage) "app" 0
                 (fresh (sample 2 py_list)) 0 forward 200
                 (document [("10", "a"); ("20", "b")]) [] _ _ _
                 eq_refl eq_refl eq_refl (paged_O _ _ _ _ _))
              (or_introl eq_refl) (le_S _ _ (le_S _ _ (le_S _ _ (le_n 2))))
              eq_refl)
    as (Hrun & _).
  rewrite Hrun. repeat split.
Defined.


(** [over_full_page_stops] on a page of three entries with [query_limit] 2. *)
Lemma over_full_page_stops_witness :
  fetch_logs (serve [page [("1", "a"); ("2", "b"); ("3", "c")]]) 1 "app" 0
    true forward (fresh (sample 2 py_list))
  = (Ret tt,
     {| self_ := with_entries [(1, "a"); (2, "b"); (3, "c")] (sample 2 py_list);
        sent := [request_of (sample 2 py_list) "app" 0 forward] |})
  /\ length (page_entries (document [("1", "a"); ("2", "b"); ("3", "c")]))
     = 3%nat.
Proof.
  exact (over_full_page_stops
           (serve [page [("1", "a"); ("2", "b"); ("3", "c")]]) 0 "app" 0 true
           forward (fresh (sample 2 py_list))
           (document [("1", "a"); ("2", "b"); ("3", "c")]) 200
           eq_refl eq_refl eq_refl).
Defined.

(** [list_store_ties_keep_order] on a store with two pairs at one time. *)
Lemma list_store_ties_keep_order_witness :
  let self :=
    with_entries [(7, "b"); (3, "c"); (7, "a")] (sample 5000 py_list) in
  (forall view f,
     compute_logs (H:=elements_order) literal_format self = (Ret view, f) ->
     format_all literal_format (date_format self)
       (raw_logs (H:=elements_order) self) = Ret view)
  /\ (Forall (formats literal_format self) (times (_logs self)) ->
      exists view f,
        compute_logs (H:=elements_order) literal_format self = (Ret view, f))
  /\ forall t,
       filter (fun e : Z * string => e.1 = t)
         (raw_logs (H:=elements_order) self)
       = filter (fun e : Z * string => e.1 = t) [(7, "b"); (3, "c"); (7, "a")].
Proof.
  exact (list_store_ties_keep_order literal_format (H:=elements_order)
           (with_entries [(7, "b"); (3, "c"); (7, "a")] (sample 5000 py_list))
           [(7, "b"); (3, "c"); (7, "a")] eq_refl).
Defined.

(** [logs_again] on that store. *)
Lemma logs_again_witness :
  logs (H:=elements_order) literal_format
    (set_result
       (Some [(default_date_format, "c"); (default_date_format, "b");
              (default_date_format, "a")])
       (with_entries [(7, "b"); (3, "c"); (7, "a")] (sample 5000 py_list)))
  = (Ret [(default_date_format, "c"); (default_date_format, "b");
          (default_date_format, "a")],
     set_result
       (Some [(default_date_format, "c"); (default_date_format, "b");
              (default_date_format, "a")])
       (with_entries [(7, "b"); (3, "c"); (7, "a")] (sample 5000 py_list))).
Proof.
  exact (logs_again literal_format (H:=elements_order)
           (with_entries [(7, "b"); (3, "c"); (7, "a")] (sample 5000 py_list))
           _ _ eq_refl).
Defined.

(** [failed_read_leaves_the_front] on a store whose second time lies beyond
    the calendar. *)
Lemma failed_read_leaves_the_front_witness :
  let self :=
    with_entries [(5, "a"); (253402300800000000000, "b")]
      (sample 5000 py_dict) in
  exists view self',
    logs (H:=elements_order) calendar_format self = (Raise ValueError, self')
    /\ self' = set_result (Some view) self
    /\ (view <> [] ->
        logs (H:=elements_order) calendar_format self' = (Ret view, self')).
Proof.
  intros self.
  destruct (failed_read_leaves_the_front calendar_format (H:=elements_order)
              self _ ValueError
              (logs (H:=elements_order) calendar_format self).2
              eq_refl (or_introl eq_refl) eq_refl)
    as (ready & t & v & todo & view & _ & _ & _ & Hstate & Hnext).
  exists view, (logs (H:=elements_order) calendar_format self).2.
  split; [reflexivity|]. split; [exact Hstate|exact Hnext].
Defined.

(** [peak_bounds_page] on the page that repeats a pair. *)
Lemma peak_bounds_page_witness :
  0 <= 7
  /\ Forall (fun e : Z * string => e.1 <= 7) (page_entries twice)
  /\ (7 = 0 \/ exists m, (7, m) ∈ page_entries twice).
Proof.
  exact (peak_bounds_page twice (sample 5000 py_dict) 2 7
           (_unpack_response twice (sample 5000 py_dict)).2 eq_refl).
Defined.

(** [fetch_logs_session] on the pages of [three_pages], with the list
    store. *)
Lemma fetch_logs_session_witness :
  (fetch_logs (serve three_pages) 3 "app" 0 true forward
     (fresh (sample 2 py_list))).1 = Ret tt
  /\ _logs (self_ (fetch_logs (serve three_pages) 3 "app" 0 true forward
                     (fresh (sample 2 py_list))).2)
     = LogsList [(10, "a"); (20, "b"); (40, "c"); (30, "d"); (50, "e")]
  /\ length (sent (fetch_logs (serve three_pages) 3 "app" 0 true forward
                     (fresh (sample 2 py_list))).2) = 3%nat.
Proof.
  edestruct (fetch_logs_session (serve three_pages) "app" 2
               (fresh (sample 2 py_list)) 0 forward)
    as (Hrun & Hlogs & Hlen).
  - eapply paged_S; [reflexivity| reflexivity| reflexivity|].
    eapply paged_S; [reflexivity| reflexivity| reflexivity|].
    apply paged_O.
  - apply le_n.
  - reflexivity.
  - reflexivity.
  - by vm_compute.
  - rewrite Hrun. repeat split.
Defined.

(** [full_pages_use_up_the_depth] with [query_limit] 0 and empty pages. *)
Lemma full_pages_use_up_the_depth_witness :
  exists s',
    fetch_logs always_empty 4 "app" 0 true forward (fresh (sample 0 py_list))
      = (Raise RecursionError, s')
    /\ length (sent s') = 4%nat.
Proof.
  exact (full_pages_use_up_the_depth always_empty 4 "app" 0 forward
           (fresh (sample 0 py_list))
           (fun _ _ => ex_intro _ 200
                         (ex_intro _ (document [])
                            (conj eq_refl (conj eq_refl eq_refl))))).
Defined.

(** [store_matches_its_type] in the state after the three pages. *)
Lemma store_matches_its_type_witness :
  data_parse_structure
    (self_ (fetch_logs (serve three_pages) 3 "app" 0 true forward
              (fresh (sample 2 py_dict))).2)
    ∈ available_data_structures
  /\ match _logs (self_ (fetch_logs (serve three_pages) 3 "app" 0 true forward
                           (fresh (sample 2 py_dict))).2) with
     | LogsList _ =>
         data_parse_structure
           (self_ (fetch_logs (serve three_pages) 3 "app" 0 true forward
                     (fresh (sample 2 py_dict))).2) = py_list
     | LogsDict _ =>
         data_parse_structure
           (self_ (fetch_logs (serve three_pages) 3 "app" 0 true forward
                     (fresh (sample 2 py_dict))).2) = py_dict
     end.
Proof.
  apply (store_matches_its_type vault literal_format latin1
           (H:=elements_order) (serve three_pages)).
  apply (reach_fetch_logs _ _ _ _ (sample 2 py_dict) 3 "app" 0 true forward []
           (fetch_logs (serve three_pages) 3 "app" 0 true forward
              (fresh (sample 2 py_dict))).1).
  - apply (reach_init _ _ _ _
             (Some "http://loki:3100/loki/api/v1/query_range")
             default_date_format 2 default_next_chunk_step_ns py_dict).
    reflexivity.
  - reflexivity.
Defined.

(** [int] on time texts, run: blanks around the number and single
    underscores between digits are accepted; the separators 28 to 31 are no
    blanks, a no-break space is one; 4300 digits are the most. *)
Example int_accepts_blanks_and_underscores :
  Py.int (" 1_0" +:+ String "010" EmptyString) = Ret 10.
Proof. by vm_compute. Qed.

Example int_rejects_a_separator :
  Py.int (String "028" "5") = Raise ValueError
  /\ Py.int (String "5" (String "031" EmptyString)) = Raise ValueError.
Proof. split; by vm_compute. Qed.

Example int_accepts_a_no_break_space : Py.int (String "160" "5") = Ret 5.
Proof. by vm_compute. Qed.

Example int_digit_limit :
  (exists n, Py.int (string_of_list_ascii (replicate 4300 "1"%char)) = Ret n)
  /\ Py.int (string_of_list_ascii (replicate 4301 "1"%char))
     = Raise ValueError.
Proof. split; [eexists|]; by vm_compute. Qed.


(** [to_file_stops_at_bad_line] with the ASCII encoding and an accented
    message in the second of three lines. *)
Lemma to_file_stops_at_bad_line_witness :
  to_file (H:=elements_order) literal_format ascii_codec None "ascii" true
    (with_entries [(1, "a"); (2, accented); (3, "c")] (sample 5000 py_list))
  = (Raise UnicodeEncodeError,
     ((logs (H:=elements_order) literal_format
         (with_entries [(1, "a"); (2, accented); (3, "c")]
            (sample 5000 py_list))).2,
      BytesIO.write (concat [bytes_of (line (default_date_format, "a"))])
        BytesIO.new)).
Proof.
  exact (to_file_stops_at_bad_line literal_format ascii_codec
           (H:=elements_order)
           (with_entries [(1, "a"); (2, accented); (3, "c")]
              (sample 5000 py_list))
           None "ascii" true
           [(default_date_format, "a")] (default_date_format, accented)
           [(default_date_format, "c")]
           [bytes_of (line (default_date_format, "a"))] UnicodeEncodeError
           eq_refl
           ltac:(by repeat constructor) eq_refl).
Defined.

(** [from_project_rejects_api_path] with the vault above. *)
Lemma from_project_rejects_api_path_witness :
  (exists e, from_project vault 7%nat (only_api_path "/api/v1/labels") = Raise e)
  /\ (forall secrets loki_host,
        vault (Some 7%nat) = Ret secrets ->
        secrets !! "loki_host" = Some loki_host ->
        "project_or_id" ∉ kw_other (only_api_path "/api/v1/labels") ->
        from_project vault 7%nat (only_api_path "/api/v1/labels")
          = Raise TypeError).
Proof.
  exact (from_project_rejects_api_path vault 7%nat
           (only_api_path "/api/v1/labels") "/api/v1/labels" eq_refl).
Defined.

(** [set_store_ignores_arrival] on two pages that share a pair. *)
Lemma set_store_ignores_arrival_witness :
  _logs (_unpack_response twice
           (_unpack_response (document [("7", "a"); ("9", "b")])
              (sample 5000 py_dict)).2).2
    = _logs (_unpack_response (document [("7", "a"); ("9", "b")])
               (_unpack_response twice (sample 5000 py_dict)).2).2
  /\ _logs (_unpack_response (document [("7", "a"); ("9", "b")])
              (_unpack_response (document [("7", "a"); ("9", "b")])
                 (sample 5000 py_dict)).2).2
     = _logs (_unpack_response (document [("7", "a"); ("9", "b")])
                (sample 5000 py_dict)).2.
Proof.
  exact (set_store_ignores_arrival (sample 5000 py_dict) ∅
           (document [("7", "a"); ("9", "b")]) twice eq_refl).
Defined.

End LokiLogFetcher.

(** ** Bucket names and listings of [MinioClientABC] *)
Module MinioClientProps.
Import MinioClient.

Lemma prefix_app p x : String.prefix p (p +:+ x) = true.
Proof.
  induction p as [|a p IH]; simpl; [by destruct x|].
  destruct (ascii_dec a a) as [_|Hne]; [exact IH|by destruct Hne].
Qed.

Lemma drop_chars_app p x : drop_chars (String.length p) (p +:+ x) = x.
Proof. induction p as [|a p IH]; simpl; [by destruct x|done]. Qed.

Lemma prefix_split p s :
  String.prefix p s = true -> s = p +:+ drop_chars (String.length p) s.
Proof.
  revert s. induction p as [|a p IH]; intros s.
  - intros _. by destruct s.
  - destruct s as [|b s]; simpl; [done|].
    destruct (ascii_dec a b) as [->|]; [|done].
    intros Hp. change (String b p +:+ ?x) with (String b (p +:+ x)).
    f_equal. by apply IH.
Qed.

Lemma replace_once_eq old new s :
  replace_once old new s =
    if String.prefix old s then new +:+ drop_chars (String.length old) s
    else match s with
         | EmptyString => EmptyString
         | String c rest => String c (replace_once old new rest)
         end.
Proof. by destruct s. Qed.

Lemma replace_once_prefix p x : replace_once p "" (p +:+ x) = x.
Proof. by rewrite replace_once_eq, prefix_app, drop_chars_app. Qed.

Section Client.
Context (p : string).
Context {datetime : Type} (isoformat : datetime -> string).

(** X12: [format_bucket_name] yields a name that starts with the prefix;
    applied to its own result, or to any name that already starts with the
    prefix, it changes nothing, so the prefix is never put on twice. *)
Theorem format_bucket_name_once bucket :
  String.prefix p (format_bucket_name p bucket) = true
  /\ format_bucket_name p (format_bucket_name p bucket)
     = format_bucket_name p bucket
  /\ forall rest, format_bucket_name p (p +:+ rest) = p +:+ rest.
Proof.
  assert (Hfix : forall rest, format_bucket_name p (p +:+ rest) = p +:+ rest).
  { intros rest. unfold format_bucket_name. by rewrite prefix_app. }
  unfold format_bucket_name at 1 3 4.
  destruct (String.prefix p bucket) eqn:Hp.
  - split; [done|]. split; [|done]. unfold format_bucket_name. by rewrite Hp.
  - split; [apply prefix_app|]. split; [apply Hfix|done].
Qed.

(** X13: [list_bucket] lists exactly the buckets whose name starts with
    the prefix, each with the prefix taken off once, and nothing when the
    answer has no [Buckets]; a listed name that does not itself start with
    the prefix is turned back by [format_bucket_name] into the name of the
    bucket it stands for. *)
Theorem list_bucket_names list_buckets response :
  list_buckets = Ret response ->
  exists listed,
    list_bucket p list_buckets = Ret listed
    /\ (forall x,
         x ∈ listed
         <-> exists each,
               each ∈ default [] (Buckets response) /\ Name each = p +:+ x)
    /\ (forall x,
         x ∈ listed -> String.prefix p x = false ->
         exists each,
           each ∈ default [] (Buckets response)
           /\ Name each = format_bucket_name p x)
    /\ (Buckets response = None -> listed = []).
Proof.
  intros ->. eexists. split; [reflexivity|].
  assert (Hiff : forall x,
    x ∈ map (fun each => replace_once p "" (Name each))
          (filter (fun each => String.prefix p (Name each) = true)
             (default [] (Buckets response)))
    <-> exists each,
          each ∈ default [] (Buckets response) /\ Name each = p +:+ x).
  { intros x. change (map ?f ?l) with (f <$> l).
    rewrite list_elem_of_fmap. split.
    - intros (each & -> & Hin). apply list_elem_of_filter in Hin as [Hp Hin].
      exists each. split; [done|].
      pose proof (prefix_split _ _ Hp) as Hs.
      revert Hs. generalize (drop_chars (String.length p) (Name each)).
      intros rest ->. by rewrite replace_once_prefix.
    - intros (each & Hin & Hname). exists each. split.
      + by rewrite Hname, replace_once_prefix.
      + apply list_elem_of_filter. split; [|done].
        rewrite Hname. apply prefix_app. }
  split; [exact Hiff|]. split.
  - intros x Hx Hp. apply Hiff in Hx as (each & Hin & Hname).
    exists each. split; [done|]. unfold format_bucket_name. by rewrite Hp.
  - by intros ->.
Qed.

Lemma answers_next {A} (pre : list A) x rest calls call :
  length calls = length pre ->
  answers (Ret <$> (pre ++ x :: rest)) calls call = Ret x.
Proof.
  intros Hlen. unfold answers.
  rewrite list_lookup_fmap, Hlen, lookup_app_r by done.
  by rewrite Nat.sub_diag.
Qed.

Lemma continues_files r :
  continues r -> exists f fs, files_of isoformat r = f :: fs.
Proof. intros [_ (x & l & Hc)]. unfold files_of. rewrite Hc. by eexists _, _. Qed.

Lemma list_files_loop_S list_objects_v2 fuel bucket files token response calls :
  list_files_loop p isoformat list_objects_v2 (S fuel) bucket files token
    response calls
  = if falsy token then Some (Ret files, calls)
    else
      match Contents response with
      | None => Some (Raise (KeyError "Contents"), calls)
      | Some [] => Some (Ret files, calls)
      | Some (_ :: _) =>
          match list_objects_v2 calls
                  {| Bucket := format_bucket_name p bucket;
                     ContinuationToken := token |} with
          | Raise e =>
              Some (Raise e,
                    calls ++ [{| Bucket := format_bucket_name p bucket;
                                 ContinuationToken := token |}])
          | Ret response' =>
              match files_of isoformat response' with
              | [] =>
                  Some (Ret files,
                        calls ++ [{| Bucket := format_bucket_name p bucket;
                                     ContinuationToken := token |}])
              | f :: fs =>
                  list_files_loop p isoformat list_objects_v2 fuel bucket
                    (files ++ f :: fs) (NextContinuationToken response')
                    response'
                    (calls ++ [{| Bucket := format_bucket_name p bucket;
                                  ContinuationToken := token |}])
              end
          end
      end.
Proof. done. Qed.

Lemma list_files_loop_spec bucket middle last r files calls pre fuel :
  continues r ->
  Forall continues middle ->
  falsy (NextContinuationToken last) = true \/ files_of isoformat last = [] ->
  length calls = length pre ->
  (length middle + 1 < fuel)%nat ->
  list_files_loop p isoformat (answers (Ret <$> (pre ++ middle ++ [last])))
    fuel bucket files (NextContinuationToken r) r calls
  = Some (Ret (files ++ flat_map (files_of isoformat) (middle ++ [last])),
          calls ++ map (call_after p bucket) (r :: middle)).
Proof.
  revert r files calls pre fuel.
  induction middle as [|r' middle IH];
    intros r files calls pre fuel Hr Hmiddle Hlast Hlen Hfuel;
    (destruct fuel as [|fuel]; [simpl in Hfuel; lia|]);
    rewrite list_files_loop_S;
    destruct Hr as [Htoken (x & l & Hcontents)]; rewrite Htoken, Hcontents.
  - change ([] ++ [last]) with [last].
    rewrite (answers_next pre last [] calls _ Hlen).
    change (flat_map (files_of isoformat) [last])
      with (files_of isoformat last ++ []).
    destruct (files_of isoformat last) as [|f fs] eqn:Hfiles.
    + by rewrite app_nil_r.
    + destruct Hlast as [Hlast|?]; [|done].
      destruct fuel as [|fuel]; [simpl in Hfuel; lia|].
      rewrite list_files_loop_S, Hlast. by rewrite app_nil_r.
  - apply Forall_cons in Hmiddle as [Hr' Hmiddle].
    change ((r' :: middle) ++ [last]) with (r' :: middle ++ [last]).
    rewrite (answers_next pre r' (middle ++ [last]) calls _ Hlen).
    destruct (continues_files r' Hr') as (f & fs & Hfiles). rewrite Hfiles.
    replace (pre ++ r' :: middle ++ [last])
      with ((pre ++ [r']) ++ middle ++ [last]) by (by rewrite <- app_assoc).
    rewrite (IH r' _ _ (pre ++ [r'])); try done.
    + change (flat_map (files_of isoformat) (r' :: middle ++ [last]))
        with (files_of isoformat r'
              ++ flat_map (files_of isoformat) (middle ++ [last])).
      rewrite Hfiles. simpl. by rewrite <- !app_assoc.
    + rewrite !length_app. simpl. lia.
    + simpl in Hfuel. lia.
Qed.

(** X14: [list_files] against a client that answers with the given
    responses in turn.  When every response but the last carries a token
    and objects, and the last carries no token, or is empty and not the
    first, the result holds the files of all the responses in their order;
    one call is made per response, the first without a token and each
    later one with the token of the response before it. *)
Theorem list_files_collects bucket pages last fuel :
  Forall continues pages ->
  falsy (NextContinuationToken last) = true
  \/ (pages <> [] /\ files_of isoformat last = []) ->
  (length pages < fuel)%nat ->
  list_files p isoformat (answers (Ret <$> (pages ++ [last]))) fuel bucket []
  = Some (Ret (flat_map (files_of isoformat) (pages ++ [last])),
          {| Bucket := format_bucket_name p bucket; ContinuationToken := None |}
          :: map (call_after p bucket) pages).
Proof.
  intros Hpages Hlast Hfuel. unfold list_files.
  destruct pages as [|r middle].
  - change ([] ++ [last]) with [last].
    rewrite (answers_next [] last [] [] _ eq_refl).
    destruct Hlast as [Hlast|[? _]]; [|done].
    destruct fuel as [|fuel]; [lia|].
    rewrite list_files_loop_S, Hlast. simpl. by rewrite app_nil_r.
  - apply Forall_cons in Hpages as [Hr Hmiddle].
    rewrite (answers_next [] r (middle ++ [last]) [] _ eq_refl).
    rewrite (list_files_loop_spec bucket middle last r _ _ [r]);
      try done; simpl in *; try lia.
    destruct Hlast as [?|[_ ?]]; [by left|by right].
Qed.

(** X15: when the first response carries a token but has no [Contents] at
    all, [list_files] raises [KeyError] after that single call. *)
Theorem list_files_token_without_contents
    (list_objects_v2 : list list_objects_call -> list_objects_call
                       -> res (list_objects_output datetime))
    fuel bucket calls response :
  list_objects_v2 calls
    {| Bucket := format_bucket_name p bucket; ContinuationToken := None |}
    = Ret response ->
  falsy (NextContinuationToken response) = false ->
  Contents response = None ->
  list_files p isoformat list_objects_v2 (S fuel) bucket calls
  = Some (Raise (KeyError "Contents"),
          calls ++ [{| Bucket := format_bucket_name p bucket;
                       ContinuationToken := None |}]).
Proof.
  intros Hfirst Htoken Hcontents. unfold list_files. rewrite Hfirst.
  by rewrite list_files_loop_S, Htoken, Hcontents.
Qed.

End Client.

(** [list_bucket_names] for project 7 and three buckets. *)
Lemma list_bucket_names_witness :
  exists listed,
    list_bucket (project_prefix "7") (Ret three_buckets) = Ret listed
    /\ (forall x,
         x ∈ listed
         <-> exists each,
               each ∈ default [] (Buckets three_buckets)
               /\ Name each = project_prefix "7" +:+ x)
    /\ (forall x,
         x ∈ listed -> String.prefix (project_prefix "7") x = false ->
         exists each,
           each ∈ default [] (Buckets three_buckets)
           /\ Name each = format_bucket_name (project_prefix "7") x)
    /\ (Buckets three_buckets = None -> listed = []).
Proof.
  exact (list_bucket_names (project_prefix "7") (Ret three_buckets)
           three_buckets eq_refl).
Defined.

(** The listing for project 7, and a listed name that formats to itself
    rather than to the bucket it came from. *)
Example list_bucket_run :
  list_bucket (project_prefix "7") (Ret three_buckets)
    = Ret ["reports"; "p--7.logs"]
  /\ format_bucket_name (project_prefix "7") "reports" = "p--7.reports"
  /\ format_bucket_name (project_prefix "7") "p--7.logs" = "p--7.logs".
Proof. by vm_compute. Qed.

(** [list_files_collects] on two responses. *)
Lemma list_files_collects_witness :
  list_files admin_prefix (fun d : string => d)
    (answers (Ret <$> ([first_response] ++ [last_response]))) 2 "reports" []
  = Some (Ret (flat_map (files_of (fun d : string => d))
                 ([first_response] ++ [last_response])),
          {| Bucket := format_bucket_name admin_prefix "reports";
             ContinuationToken := None |}
          :: map (call_after admin_prefix "reports") [first_response]).
Proof.
  exact (list_files_collects admin_prefix (fun d : string => d) "reports"
           [first_response] last_response 2
           ltac:(repeat constructor; by eexists _, _)
           (or_introl eq_refl) (le_n 2)).
Defined.

(** [list_files_token_without_contents] on a response with a token only. *)
Lemma list_files_token_without_contents_witness :
  list_files admin_prefix (fun d : string => d) (answers [Ret token_only])
    1 "reports" []
  = Some (Raise (KeyError "Contents"),
          [] ++ [{| Bucket := format_bucket_name admin_prefix "reports";
                    ContinuationToken := None |}]).
Proof.
  exact (list_files_token_without_contents admin_prefix (fun d : string => d)
           (answers [Ret token_only]) 0 "reports" [] token_only
           eq_refl eq_refl eq_refl).
Defined.

End MinioClientProps.
